(** * ssm-editor: a shallow embedding of [cli.py]

    The program fetches every parameter under a path prefix, writes them to a
    temporary file as [key=value] lines, lets a human edit the file, reparses
    it, and writes the changed values back.

    Python values are modelled as the program has them:
    - a [str] is a sequence of Unicode code points ([list N]);
    - a [dict] is an insertion-ordered association list with unique keys;
    - a raised exception is the [Raise] case of [result];
    - a file holds bytes; text is written and read through the codec of the
      locale, which refuses what it cannot encode or decode;
    - the file system, the editor and the remote service are explicit state
      and explicit environment functions. *)

From Stdlib Require Import List PeanoNat NArith Bool Ascii String Lia.
Import ListNotations.

Local Open Scope N_scope.
Local Open Scope list_scope.

(** ** Python strings *)

Module Py.

Definition char := N.
Definition str := list char.

(** A literal: the code points of an ASCII/Latin-1 string. *)
Definition lit (s : string) : str := map N_of_ascii (list_ascii_of_string s).

Definition LF : char := 10.
Definition CR : char := 13.
Definition EQ : char := 61.

Fixpoint str_eqb (a b : str) : bool :=
  match a, b with
  | [], [] => true
  | x :: a', y :: b' => (x =? y) && str_eqb a' b'
  | _, _ => false
  end.

(** [str.isspace] on one code point (CPython's [_PyUnicode_IsWhitespace]):
    U+0009..U+000D, U+001C..U+0020, U+0085, U+00A0, U+1680, U+2000..U+200A,
    U+2028, U+2029, U+202F, U+205F, U+3000. *)
Definition isspace (c : char) : bool :=
  ((9 <=? c) && (c <=? 13)) || ((28 <=? c) && (c <=? 32))
  || (c =? 133) || (c =? 160) || (c =? 5760)
  || ((8192 <=? c) && (c <=? 8202))
  || (c =? 8232) || (c =? 8233) || (c =? 8239) || (c =? 8287) || (c =? 12288).

Fixpoint lstrip (s : str) : str :=
  match s with
  | [] => []
  | c :: s' => if isspace c then lstrip s' else s
  end.

Definition rstrip (s : str) : str := rev (lstrip (rev s)).

(** [s.strip()] *)
Definition strip (s : str) : str := rstrip (lstrip s).

(** [c in s] for a one-character needle. *)
Definition contains (c : char) (s : str) : bool := existsb (N.eqb c) s.

(** [s.startswith(p)] *)
Fixpoint startswith (p s : str) : bool :=
  match p, s with
  | [], _ => true
  | _ :: _, [] => false
  | a :: p', b :: s' => (a =? b) && startswith p' s'
  end.

(** Exceptions of the program's paths; all are subclasses of [Exception]. *)
Inductive exn : Type :=
| KeyError (key : str)
| IndexError
| ValueError
| FileNotFoundError (path : str)
| ClientError (msg : str)
| EOFError
| UnicodeEncodeError
| UnicodeDecodeError.

Inductive result (A : Type) : Type :=
| Ok (a : A)
| Raise (e : exn).
Arguments Ok {A} a.
Arguments Raise {A} e.

Definition bind {A B} (r : result A) (k : A -> result B) : result B :=
  match r with
  | Ok a => k a
  | Raise e => Raise e
  end.

(** [maxsplit]: [None] is Python's default (-1, no limit). *)
Definition may_split (maxsplit : option nat) : bool :=
  match maxsplit with
  | Some O => false
  | _ => true
  end.

Definition used_split (maxsplit : option nat) : option nat :=
  match maxsplit with
  | Some n => Some (Nat.pred n)
  | None => None
  end.

(** The scan of [str.split(sep, maxsplit)] for a non-empty [sep]: left to
    right, cutting at each non-overlapping occurrence of [sep].  [skip] counts
    the characters of a matched separator still to be passed over and [cur]
    holds the current piece, reversed. *)
Fixpoint split_scan (sep : str) (maxsplit : option nat) (skip : nat)
  (cur : str) (s : str) : list str :=
  match s with
  | [] => [rev cur]
  | c :: s' =>
    match skip with
    | S n => split_scan sep maxsplit n cur s'
    | O =>
      if may_split maxsplit && startswith sep s
      then rev cur :: split_scan sep (used_split maxsplit) (Nat.pred (List.length sep)) [] s'
      else split_scan sep maxsplit 0 (c :: cur) s'
    end
  end.

(** [s.split(sep, maxsplit)]; an empty separator raises [ValueError]. *)
Definition split (sep : str) (maxsplit : option nat) (s : str) : result (list str) :=
  match sep with
  | [] => Raise ValueError
  | _ :: _ => Ok (split_scan sep maxsplit 0 [] s)
  end.

(** [l[i]] on a list. *)
Definition getitem {A} (l : list A) (i : nat) : result A :=
  match nth_error l i with
  | Some a => Ok a
  | None => Raise IndexError
  end.

(** [a, b = l]: unpacking into exactly two targets. *)
Definition unpack2 {A} (l : list A) : result (A * A) :=
  match l with
  | [a; b] => Ok (a, b)
  | _ => Raise ValueError
  end.

(** ** Python dictionaries: insertion-ordered, keys unique *)

Definition dict := list (str * str).

(** [d.get(k)] *)
Fixpoint get (d : dict) (k : str) : option str :=
  match d with
  | [] => None
  | (k', v) :: d' => if str_eqb k' k then Some v else get d' k
  end.

(** [d[k]] *)
Definition lookup (d : dict) (k : str) : result str :=
  match get d k with
  | Some v => Ok v
  | None => Raise (KeyError k)
  end.

(** [d[k] = v]: an existing key keeps its position, a new key goes last. *)
Fixpoint set (k v : str) (d : dict) : dict :=
  match d with
  | [] => [(k, v)]
  | (k', v') :: d' => if str_eqb k' k then (k', v) :: d' else (k', v') :: set k v d'
  end.

Definition keys (d : dict) : list str := map fst d.

(** The invariant every Python dict satisfies. *)
Definition wf (d : dict) : Prop := NoDup (keys d).

(** [d1 == d2] on dicts: same keys with the same values, in any order. *)
Definition dict_eq (d1 d2 : dict) : Prop := forall k, get d1 k = get d2 k.

End Py.

(** ** Text and bytes *)

Module Codec.
Import Py.

(** The content of a file: bytes, each below 256. *)
Definition bytes := list N.

(** A codec in strict mode, as text files are opened with: [encode] and
    [decode] give nothing where Python raises [UnicodeEncodeError] and
    [UnicodeDecodeError]. *)
Record codec := {
  encode : str -> option bytes;
  decode : bytes -> option str
}.

(** U+D800..U+DFFF. *)
Definition surrogate (c : char) : bool := (55296 <=? c) && (c <=? 57343).

(** UTF-8, the codec of most locales.  A surrogate has no encoding. *)
Definition utf8_encode_char (c : char) : option bytes :=
  if c <? 128 then Some [c]
  else if c <? 2048 then Some [192 + c / 64; 128 + c mod 64]
  else if c <? 65536 then
    if surrogate c then None
    else Some [224 + c / 4096; 128 + (c / 64) mod 64; 128 + c mod 64]
  else if c <? 1114112 then
    Some [240 + c / 262144; 128 + (c / 4096) mod 64; 128 + (c / 64) mod 64;
          128 + c mod 64]
  else None.

Fixpoint utf8_encode (s : str) : option bytes :=
  match s with
  | [] => Some []
  | c :: s' =>
    match utf8_encode_char c, utf8_encode s' with
    | Some a, Some b => Some (a ++ b)
    | _, _ => None
    end
  end.

(** A continuation byte, 0x80..0xBF. *)
Definition continuation (b : N) : bool := (128 <=? b) && (b <=? 191).

Definition push (c : char) (rest : option str) : option str :=
  match rest with
  | Some s => Some (c :: s)
  | None => None
  end.

(** Strict decoding: a lead byte 0xC2..0xF4 with its continuation bytes; no
    overlong form, no surrogate, nothing above U+10FFFF, no truncated
    sequence. *)
Fixpoint utf8_decode (b : bytes) : option str :=
  match b with
  | [] => Some []
  | b0 :: r0 =>
    if b0 <? 128 then push b0 (utf8_decode r0)
    else if (194 <=? b0) && (b0 <=? 223) then
      match r0 with
      | b1 :: r1 =>
        if continuation b1
        then push ((b0 - 192) * 64 + (b1 - 128)) (utf8_decode r1)
        else None
      | _ => None
      end
    else if (224 <=? b0) && (b0 <=? 239) then
      match r0 with
      | b1 :: b2 :: r2 =>
        let c := (b0 - 224) * 4096 + (b1 - 128) * 64 + (b2 - 128) in
        if continuation b1 && continuation b2 && (2048 <=? c)
           && negb (surrogate c)
        then push c (utf8_decode r2)
        else None
      | _ => None
      end
    else if (240 <=? b0) && (b0 <=? 244) then
      match r0 with
      | b1 :: b2 :: b3 :: r3 =>
        let c := (b0 - 240) * 262144 + (b1 - 128) * 4096 + (b2 - 128) * 64
                 + (b3 - 128) in
        if continuation b1 && continuation b2 && continuation b3
           && (65536 <=? c) && (c <? 1114112)
        then push c (utf8_decode r3)
        else None
      | _ => None
      end
    else None
  end.

Definition utf8 : codec := {| encode := utf8_encode; decode := utf8_decode |}.

(** A codec that reads back what it wrote: the bytes of a text, followed by
    bytes that decode, decode to the text followed by what the rest decodes
    to. *)
Definition faithful (c : codec) : Prop :=
  decode c [] = Some [] /\
  forall s b rest t,
    encode c s = Some b -> decode c rest = Some t ->
    decode c (b ++ rest) = Some (s ++ t).

End Codec.

(** ** [fetch_parameters_by_path] (cli.py, lines 7-26) *)

Module Fetcher.
Import Py.

(** One element of [response['Parameters']]. *)
Record param := { Name : str; Value : str }.

(** The keyword arguments of [ssm.get_parameters_by_path]. *)
Record request := {
  Path : str;
  Recursive : bool;
  WithDecryption : bool;
  NextTokenArg : option str
}.

(** The response; a field is [None] when the key is absent. *)
Record response := {
  Parameters : option (list param);
  NextToken : option str
}.

(** The remote service as the fetcher sees it. *)
Definition client := request -> result response.

(** Truth value of [next_token]: [None] and the empty string are false. *)
Definition truthy (t : option str) : bool :=
  match t with
  | Some (_ :: _) => true
  | _ => false
  end.

(** [param['Name'].split(path)[1]] *)
Definition relative_key (path name : str) : result str :=
  bind (split path None name) (fun parts => getitem parts 1).

(** The [for param in response.get('Parameters', [])] loop. *)
Fixpoint store_page (path : str) (page : list param) (parameters : dict)
  : result dict :=
  match page with
  | [] => Ok parameters
  | p :: page' =>
    bind (relative_key path (Name p)) (fun k =>
    store_page path page' (set k (Value p) parameters))
  end.

Definition page_of (r : response) : list param :=
  match Parameters r with
  | Some ps => ps
  | None => []
  end.

(** The [while True] loop; [None] when [fuel] requests were not enough. *)
Fixpoint fetch_loop (fuel : nat) (ssm : client) (path : str)
  (parameters : dict) (next_token : option str) : option (result dict) :=
  match fuel with
  | O => None
  | S fuel' =>
    let kwargs := {| Path := path; Recursive := true; WithDecryption := true;
                     NextTokenArg := if truthy next_token then next_token else None |} in
    match ssm kwargs with
    | Raise e => Some (Raise e)
    | Ok response =>
      match store_page path (page_of response) parameters with
      | Raise e => Some (Raise e)
      | Ok parameters' =>
        let next_token := NextToken response in
        if truthy next_token
        then fetch_loop fuel' ssm path parameters' next_token
        else Some (Ok parameters')
      end
    end
  end.

Definition fetch_parameters_by_path (fuel : nat) (ssm : client) (path : str)
  : option (result dict) :=
  fetch_loop fuel ssm path [] None.

(** A service that serves a fixed list of pages: page [i] carries the cursor
    [i+1] unless it is the last one. *)
Definition cursor (i : nat) : str := repeat 116 (S i).

(** The cursor with which page [i] is requested. *)
Definition token_of (i : nat) : option str :=
  match i with
  | O => None
  | S j => Some (cursor j)
  end.

Definition paged_client (pages : list (list param)) : client :=
  fun kwargs =>
    let i := match NextTokenArg kwargs with
             | Some t => List.length t
             | None => O
             end in
    Ok {| Parameters := nth_error pages i;
          NextToken := if Nat.ltb (S i) (List.length pages)
                       then Some (cursor i) else None |}.

(** The entries the service holds for a snapshot under [path]: the name of
    each is the prefix followed by its relative key. *)
Definition entries_of (path : str) (d : dict) : list param :=
  map (fun kv => {| Name := path ++ fst kv; Value := snd kv |}) d.

End Fetcher.

(** ** [edit_parameters_in_editor] (cli.py, lines 29-53) *)

Module EditSession.
Import Py Codec.

(** The file system: path to the bytes of the file.  The two [print] calls
    of the function (lines 38 and 39, the prompt) do not touch the files and
    are left out. *)
Definition fs := str -> option bytes.

Definition fs_write (p : str) (content : bytes) (f : fs) : fs :=
  fun q => if str_eqb q p then Some content else f q.

Definition fs_unlink (p : str) (f : fs) : fs :=
  fun q => if str_eqb q p then None else f q.

(** Computations that read and change the file system and may raise. *)
Definition io (A : Type) := fs -> result A * fs.

Definition ret {A} (a : A) : io A := fun f => (Ok a, f).
Definition throw {A} (e : exn) : io A := fun f => (Raise e, f).
Definition seq {A B} (m : io A) (k : A -> io B) : io B :=
  fun f => match m f with
           | (Ok a, f') => k a f'
           | (Raise e, f') => (Raise e, f')
           end.

Notation "x <- m ;; k" := (seq m (fun x => k))
  (at level 61, m at next level, right associativity).

(** What the session is given by its surroundings: the name that
    [NamedTemporaryFile] picks, the codec of the locale, with which text
    files are written and read, and the three calls that hand control to the
    editor or the human, who may change any file meanwhile. *)
Record env := {
  tmp_name : str;
  locale : codec;
  Popen : list str -> io unit;
  input : str -> io str;
  call : list str -> io N
}.

(** [f"{k}={v}\n"] *)
Definition format_line (k v : str) : str := k ++ [EQ] ++ v ++ [LF].

(** The text the [for k, v in parameters.items()] loop writes, when all of
    it can be encoded. *)
Definition serialize (parameters : dict) : str :=
  fold_left (fun written kv => written ++ format_line (fst kv) (snd kv))
            parameters [].

(** Reading in text mode translates CR LF and a lone CR to LF. *)
Fixpoint universal_newlines (s : str) : str :=
  match s with
  | [] => []
  | c :: rest =>
    if c =? CR
    then LF :: match rest with
               | [] => []
               | d :: rest' =>
                 if d =? LF then universal_newlines rest'
                 else universal_newlines rest
               end
    else c :: universal_newlines rest
  end.

(** The lines a file object yields from the decoded text: each ends after
    its LF, which it keeps; the last one may have none. *)
Fixpoint lines_from (cur : str) (s : str) : list str :=
  match s with
  | [] => match cur with
          | [] => []
          | _ :: _ => [rev cur]
          end
  | c :: s' =>
    if c =? LF then rev (c :: cur) :: lines_from [] s'
    else lines_from (c :: cur) s'
  end.

Definition readlines (content : str) : list str :=
  lines_from [] (universal_newlines content).

(** The body of the [for line in f] loop (lines 46-50). *)
Definition parse_line (updated_data : dict) (line : str) : result dict :=
  let line := strip line in
  match line with
  | [] => Ok updated_data
  | _ :: _ =>
    if negb (contains EQ line) then Ok updated_data
    else
      bind (split [EQ] (Some 1%nat) line) (fun parts =>
      bind (unpack2 parts) (fun kv =>
      Ok (set (strip (fst kv)) (strip (snd kv)) updated_data)))
  end.

Fixpoint parse_lines (updated_data : dict) (ls : list str) : result dict :=
  match ls with
  | [] => Ok updated_data
  | line :: ls' =>
    bind (parse_line updated_data line) (fun d => parse_lines d ls')
  end.

(** Lines 45-50 on the decoded text of the file. *)
Definition reparse (content : str) : result dict :=
  parse_lines [] (readlines content).

(** Lines 33-34: each [tmp.write] encodes its line; a line that cannot be
    encoded raises, and what was written before it stays. *)
Fixpoint write_lines (c : codec) (items : dict) (written : bytes)
  : result unit * bytes :=
  match items with
  | [] => (Ok tt, written)
  | (k, v) :: items' =>
    match encode c (format_line k v) with
    | Some b => write_lines c items' (written ++ b)
    | None => (Raise UnicodeEncodeError, written)
    end
  end.

(** Lines 31-34: the file is created, the lines are written, and the file
    is closed with what was written, also when a write raised. *)
Definition create_and_write (c : codec) (p : str) (parameters : dict)
  : io unit :=
  fun f => (fst (write_lines c parameters []),
            fs_write p (snd (write_lines c parameters [])) f).

(** [open(tmp_file, 'r')] and the decoding of what is read. *)
Definition read_text (c : codec) (p : str) : io str :=
  fun f => match f p with
           | Some b =>
             match decode c b with
             | Some content => (Ok content, f)
             | None => (Raise UnicodeDecodeError, f)
             end
           | None => (Raise (FileNotFoundError p), f)
           end.

(** Lines 43-50: the file read back into [updated_data]. *)
Definition reparse_file (c : codec) (p : str) : io dict :=
  fun f => match read_text c p f with
           | (Ok content, f') => (reparse content, f')
           | (Raise err, f') => (Raise err, f')
           end.

Definition unlink (p : str) : io unit :=
  fun f => match f p with
           | Some _ => (Ok tt, fs_unlink p f)
           | None => (Raise (FileNotFoundError p), f)
           end.

Definition prompt : str :=
  lit "Press Enter after saving and closing the file in VS Code...".

(** Lines 36-41: the detached launch followed by the wait for Enter, or the
    blocking call. *)
Definition invoke_editor (e : env) (editor tmp_file : str) : io unit :=
  if str_eqb editor (lit "code")
  then _ <- Popen e [editor; tmp_file] ;;
       _ <- input e prompt ;;
       ret tt
  else _ <- call e [editor; tmp_file] ;;
       ret tt.

Definition edit_parameters_in_editor (e : env) (parameters : dict)
  (editor : str) : io dict :=
  let tmp_file := tmp_name e in
  _ <- create_and_write (locale e) tmp_file parameters ;;
  _ <- invoke_editor e editor tmp_file ;;
  updated_data <- reparse_file (locale e) tmp_file ;;
  _ <- unlink tmp_file ;;
  ret updated_data.

End EditSession.

(** ** The diff-and-commit part of [main] (cli.py, lines 71-92) *)

Module Commit.
Import Py.

(** The keyword arguments of [ssm.put_parameter]. *)
Record put_request := {
  Name : str;
  Value : str;
  Type_ : str;
  Overwrite : bool
}.

(** A row of [changes]: [[k, params[k], v]]. *)
Definition change := (str * str * str)%type.

(** What the program prints from line 86 on. *)
Inductive output : Type :=
| FailedToUpdate (k : str) (e : exn)
| NoChanges
| ChangesTable (rows : list change)
| AllUpdated.

Section WithService.

(** The remote service: a state and the effect of one [put_parameter] call,
    which returns normally or raises. *)
Variable service : Type.
Variable put_parameter : service -> put_request -> service * result unit.

(** The program state of the loop; [puts] keeps the calls made so far, each
    with its outcome. *)
Record state := {
  changes : list change;
  ssm : service;
  stdout : list output;
  puts : list (put_request * result unit)
}.

(** [params.get(k) != v] *)
Definition differs (params : dict) (k v : str) : bool :=
  match get params k with
  | Some old => negb (str_eqb old v)
  | None => true
  end.

Definition put_for (path k v : str) : put_request :=
  {| Name := path ++ k; Value := v;
     Type_ := lit "SecureString"; Overwrite := true |}.

(** Lines 78-86: the call inside [try], and the [except Exception] handler. *)
Definition try_put (path k v : str) (st : state) : state :=
  let req := put_for path k v in
  let (ssm', r) := put_parameter (ssm st) req in
  {| changes := changes st;
     ssm := ssm';
     stdout := match r with
               | Ok _ => stdout st
               | Raise e => stdout st ++ [FailedToUpdate k e]
               end;
     puts := puts st ++ [(req, r)] |}.

(** Lines 76-86, the body of the loop for one item of [updated_params]. *)
Definition visit (path : str) (params : dict) (k v : str) (st : state)
  : result unit * state :=
  if differs params k v then
    match lookup params k with
    | Raise e => (Raise e, st)
    | Ok old =>
      let st1 := {| changes := changes st ++ [(k, old, v)]; ssm := ssm st;
                    stdout := stdout st; puts := puts st |} in
      (Ok tt, try_put path k v st1)
    end
  else (Ok tt, st).

(** Line 75: [for k, v in updated_params.items()]. *)
Fixpoint commit_loop (path : str) (params : dict) (items : dict) (st : state)
  : result unit * state :=
  match items with
  | [] => (Ok tt, st)
  | (k, v) :: items' =>
    match visit path params k v st with
    | (Raise e, st') => (Raise e, st')
    | (Ok _, st') => commit_loop path params items' st'
    end
  end.

(** Lines 88-92. *)
Definition report (st : state) : state :=
  {| changes := changes st; ssm := ssm st;
     stdout := match changes st with
               | [] => stdout st ++ [NoChanges]
               | _ :: _ => stdout st ++ [ChangesTable (changes st); AllUpdated]
               end;
     puts := puts st |}.

(** Lines 72-92 of [main]: from the fetched [params] and the edited
    [updated_params] to the end of the program. *)
Definition commit (s0 : service) (path : str) (params updated_params : dict)
  : result unit * state :=
  let st0 := {| changes := []; ssm := s0; stdout := []; puts := [] |} in
  match commit_loop path params updated_params st0 with
  | (Raise e, st) => (Raise e, st)
  | (Ok _, st) => (Ok tt, report st)
  end.

(** *** Predicates used to state what the loop does *)

(** The three ways one item of the edited snapshot is handled. *)
Inductive visited (path : str) (params : dict) (k v : str) (st : state)
  : result unit -> state -> Prop :=
| visited_unchanged :
    get params k = Some v ->
    visited path params k v st (Ok tt) st
| visited_new :
    get params k = None ->
    visited path params k v st (Raise (KeyError k)) st
| visited_changed old ssm' outcome :
    get params k = Some old -> old <> v ->
    put_parameter (ssm st) (put_for path k v) = (ssm', outcome) ->
    visited path params k v st (Ok tt)
      {| changes := changes st ++ [(k, old, v)];
         ssm := ssm';
         stdout := match outcome with
                   | Ok _ => stdout st
                   | Raise e => stdout st ++ [FailedToUpdate k e]
                   end;
         puts := puts st ++ [(put_for path k v, outcome)] |}.

(** Every recorded call was made for a changed item of the edited snapshot. *)
Definition puts_from (path : str) (params items : dict) (st : state) : Prop :=
  forall req outcome, In (req, outcome) (puts st) ->
    exists k v, req = put_for path k v /\ In (k, v) items /\
                exists old, get params k = Some old /\ old <> v.

(** Every row of [changes] comes from a changed item. *)
Definition changes_from (params items : dict) (st : state) : Prop :=
  forall k old v, In (k, old, v) (changes st) ->
    In (k, v) items /\ get params k = Some old /\ old <> v.

(** Every refused call has its line on the output. *)
Definition failures_printed (path : str) (st : state) : Prop :=
  forall k v e, In (put_for path k v, Raise e) (puts st) ->
    In (FailedToUpdate k e) (stdout st).

End WithService.

Arguments changes {service} _.
Arguments ssm {service} _.
Arguments stdout {service} _.
Arguments puts {service} _.
Arguments puts_from {service} path params items st.
Arguments changes_from {service} params items st.
Arguments failures_printed {service} path st.

(** A reference service: a store from names to values in which the calls
    named by [failing] are refused. *)
Definition store := dict.

Definition store_put (failing : str -> bool) (s : store) (req : put_request)
  : store * result unit :=
  if failing (Name req) then (s, Raise (ClientError (Name req)))
  else (set (Name req) (Value req) s, Ok tt).

End Commit.

(** ** The reparse step in the words of the specification

    "For each line, trim whitespace; skip if empty or contains no [=];
    otherwise split on the first [=] into key/value, trim both, insert into
    EditedSnapshot (later duplicate keys in the file overwrite earlier
    ones)."  These definitions follow that sentence, not the code; the code's
    [EditSession.reparse] is compared with them below. *)

Module Spec.
Import Py.

(** The text before and after the first [c] of [s], when there is one. *)
Fixpoint cut_first (c : char) (s : str) : option (str * str) :=
  match s with
  | [] => None
  | x :: s' =>
    if x =? c then Some ([], s')
    else match cut_first c s' with
         | Some (before, after) => Some (x :: before, after)
         | None => None
         end
  end.

(** The entry a line contributes, if any. *)
Definition entry_of_line (line : str) : option (str * str) :=
  let trimmed := strip line in
  match trimmed with
  | [] => None
  | _ :: _ =>
    match cut_first EQ trimmed with
    | Some (key, value) => Some (strip key, strip value)
    | None => None
    end
  end.

Definition insert_entry (d : dict) (line : str) : dict :=
  match entry_of_line line with
  | Some (key, value) => set key value d
  | None => d
  end.

(** The EditedSnapshot of a document given as its lines. *)
Definition edited_snapshot (lines : list str) : dict :=
  fold_left insert_entry lines [].

(** The value of the last line that carries the key [k]. *)
Definition last_value (k : str) (lines : list str) : option str :=
  fold_left (fun found line =>
               match entry_of_line line with
               | Some (key, value) => if str_eqb key k then Some value else found
               | None => found
               end) lines None.

(** A key, and a value, that the line format carries unchanged: trimming
    leaves it as it is, it has no line break, and a key has no [=]. *)
Definition plain_value (v : str) : Prop :=
  strip v = v /\ ~ In LF v /\ ~ In CR v.

Definition plain_key (k : str) : Prop :=
  plain_value k /\ ~ In EQ k.

Definition plain (d : dict) : Prop :=
  forall k v, In (k, v) d -> plain_key k /\ plain_value v.

(** "ChangeSet: ordered sequence of (key, oldValue, newValue) triples where
    [EditedSnapshot[key] != ParameterSnapshot.get(key)]", the old value being
    absent for a key that the original snapshot lacks. *)
Definition is_change (original : dict) (kv : str * str) : bool :=
  match get original (fst kv) with
  | Some old => negb (str_eqb old (snd kv))
  | None => true
  end.

Definition change_set (original edited : dict)
  : list (str * option str * str) :=
  map (fun kv => (fst kv, get original (fst kv), snd kv))
      (filter (is_change original) edited).

(** A row of the program's [changes] as a triple of the ChangeSet. *)
Definition triple_of (row : str * str * str) : str * option str * str :=
  (fst (fst row), Some (snd (fst row)), snd row).

(** [sep] occurs in [s] at some position. *)
Definition occurs (sep s : str) : Prop :=
  exists i, startswith sep (skipn i s) = true.

End Spec.

(** ** Concrete inputs used in the examples below *)

Module Examples.
Import Py.

Definition prefix : str := lit "/p/".

(** The snapshots of the specification's diff example. *)
Definition original_ab : dict := [(lit "a", lit "1"); (lit "b", lit "2")].
Definition edited_abc : dict :=
  [(lit "a", lit "1"); (lit "b", lit "3"); (lit "c", lit "4")].

(** An edit that changes values only. *)
Definition original_abc : dict :=
  [(lit "a", lit "1"); (lit "b", lit "2"); (lit "c", lit "3")].
Definition edited_all : dict :=
  [(lit "a", lit "10"); (lit "b", lit "20"); (lit "c", lit "30")].
Definition edited_b_dropped : dict := [(lit "a", lit "1"); (lit "c", lit "30")].

(** A service that refuses the write of [/p/b] and accepts the others. *)
Definition refuses_b (name : str) : bool := str_eqb name (lit "/p/b").
Definition accepts_all (name : str) : bool := false.

(** A value of two lines, as a certificate or a key would be. *)
Definition multiline_snapshot : dict :=
  [(lit "cert", lit "line1" ++ [LF] ++ lit "line2")].

(** A blank line, a line without [=], and the line [x=y=z]. *)
Definition permissive_document : str :=
  [LF] ++ lit "no separator here" ++ [LF] ++ lit "x=y=z" ++ [LF].

(** No file exists. *)
Definition empty_fs : EditSession.fs := fun _ => None.

(** The bytes of [café=1] saved in Latin-1: the byte 0xE9 is no UTF-8. *)
Definition latin1_document : Codec.bytes := [99; 97; 102; 233; 61; 49; 10].

(** A snapshot whose value is a lone surrogate, U+D800, as [json] gives for
    an escaped one. *)
Definition surrogate_snapshot : dict := [(lit "k", [55296])].

(** Surroundings in which the editor command cannot be started: [Popen] and
    [call] raise and leave the files as they are. *)
Definition no_such_editor : EditSession.env :=
  {| EditSession.tmp_name := lit "/tmp/tmpk3v9.txt";
     EditSession.locale := Codec.utf8;
     EditSession.Popen := fun argv f => (Raise (FileNotFoundError (hd [] argv)), f);
     EditSession.input := fun _ f => (Ok [], f);
     EditSession.call := fun argv f => (Raise (FileNotFoundError (hd [] argv)), f) |}.

(** Surroundings in which the editor runs and the human changes nothing. *)
Definition idle_editor : EditSession.env :=
  {| EditSession.tmp_name := lit "/tmp/tmpk3v9.txt";
     EditSession.locale := Codec.utf8;
     EditSession.Popen := fun _ f => (Ok tt, f);
     EditSession.input := fun _ f => (Ok [], f);
     EditSession.call := fun _ f => (Ok 0, f) |}.

(** Two parameters under [/a/] whose names contain [/a/] a second time. *)
Definition nested_prefix : str := lit "/a/".
Definition nested_c : Fetcher.param :=
  {| Fetcher.Name := lit "/a/b/a/c"; Fetcher.Value := lit "1" |}.
Definition nested_d : Fetcher.param :=
  {| Fetcher.Name := lit "/a/b/a/d"; Fetcher.Value := lit "2" |}.

(** Two parameters whose names contain the prefix once. *)
Definition flat_x : Fetcher.param :=
  {| Fetcher.Name := lit "/a/x"; Fetcher.Value := lit "1" |}.
Definition flat_y : Fetcher.param :=
  {| Fetcher.Name := lit "/a/y"; Fetcher.Value := lit "2" |}.

End Examples.

(** ** [main] (cli.py, lines 56-92) *)

Module Main.
Import Py.

(** The parsed command line: [args.path] and [args.editor] (whose default is
    ["code"]).  The parsing itself is [argparse]'s and is not modelled. *)
Record args := { path : str; editor : str }.

(** The lines [main] itself prints: lines 65, 68 and 71, then those of the
    commit.  (The lines printed inside the edit session are left out, as in
    [EditSession].) *)
Inductive line : Type :=
| Fetching (path : str)
| Fetched (n : nat)
| ChangedValues
| Reported (o : Commit.output).

Section WithWorld.

(** The remote service, read by [get_parameters_by_path] and changed by
    [put_parameter], and the surroundings of the edit session. *)
Variable service : Type.
Variable get_parameters_by_path :
  service -> Fetcher.request -> result Fetcher.response.
Variable put_parameter :
  service -> Commit.put_request -> service * result unit.
Variable e : EditSession.env.

(** What a run leaves: how it ended, the service, the files, the lines
    printed and the [put_parameter] calls made. *)
Record outcome := {
  status : result unit;
  remote : service;
  files : EditSession.fs;
  printed : list line;
  calls : list (Commit.put_request * result unit)
}.

(** [main], for at most [fuel] page requests; [None] when they were not
    enough. *)
Definition main (fuel : nat) (a : args) (s0 : service) (f0 : EditSession.fs)
  : option outcome :=
  match Fetcher.fetch_parameters_by_path fuel (get_parameters_by_path s0) (path a) with
  | None => None
  | Some (Raise err) =>
    Some {| status := Raise err; remote := s0; files := f0;
            printed := [Fetching (path a)]; calls := [] |}
  | Some (Ok params) =>
    match EditSession.edit_parameters_in_editor e params (editor a) f0 with
    | (Raise err, f1) =>
      Some {| status := Raise err; remote := s0; files := f1;
              printed := [Fetching (path a); Fetched (List.length params)];
              calls := [] |}
    | (Ok updated_params, f1) =>
      let run := Commit.commit service put_parameter s0 (path a) params
                   updated_params in
      Some {| status := fst run; remote := Commit.ssm (snd run); files := f1;
              printed := [Fetching (path a); Fetched (List.length params);
                          ChangedValues]
                         ++ map Reported (Commit.stdout (snd run));
              calls := Commit.puts (snd run) |}
    end
  end.

End WithWorld.

Arguments status {service} _.
Arguments remote {service} _.
Arguments files {service} _.
Arguments printed {service} _.
Arguments calls {service} _.

End Main.

(** ** Notions used to state further properties *)

Module Notions.
Import Py.

(** Only white space. *)
Definition blank (s : str) : Prop := forallb isspace s = true.

(** The value of the last of [entries] that is stored under [k], or [found]
    when there is none. *)
Definition latest (path k : str) (entries : list Fetcher.param)
  (found : option str) : option str :=
  fold_left (fun found p =>
               match Fetcher.relative_key path (Fetcher.Name p) with
               | Ok k' => if str_eqb k' k then Some (Fetcher.Value p) else found
               | Raise _ => found
               end) entries found.

(** A text with every line feed written as CR LF, and as a lone CR. *)
Definition to_crlf (s : str) : str :=
  flat_map (fun c => if c =? LF then [CR; LF] else [c]) s.

Definition to_cr (s : str) : str :=
  map (fun c => if c =? LF then CR else c) s.

(** The key a call was made for: its name without the prefix. *)
Definition key_of (path : str) (req : Commit.put_request) : str :=
  skipn (List.length path) (Commit.Name req).

(** The lines of line 86 for the calls that raised, in the order of the
    calls. *)
Definition failure_lines (path : str)
  (puts : list (Commit.put_request * result unit)) : list Commit.output :=
  flat_map (fun call =>
              match snd call with
              | Ok _ => []
              | Raise err => [Commit.FailedToUpdate (key_of path (fst call)) err]
              end) puts.

(** The lines of lines 88-92 for a list of changes. *)
Definition report_lines (changes : list Commit.change) : list Commit.output :=
  match changes with
  | [] => [Commit.NoChanges]
  | _ :: _ => [Commit.ChangesTable changes; Commit.AllUpdated]
  end.

(** The call line 79 makes for a row of [changes]. *)
Definition put_of_change (path : str) (row : Commit.change)
  : Commit.put_request :=
  Commit.put_for path (fst (fst row)) (snd row).

(** A service that answers every request with an empty page and a cursor. *)
Definition endless : Fetcher.client :=
  fun _ => Ok {| Fetcher.Parameters := None;
                 Fetcher.NextToken := Some (lit "more") |}.

(** A service that refuses every request that is not recursive and
    decrypted, and answers the others as [ssm] does. *)
Definition only_recursive_decrypted (ssm : Fetcher.client) : Fetcher.client :=
  fun req =>
    if Fetcher.Recursive req && Fetcher.WithDecryption req then ssm req
    else Raise (ClientError (lit "ValidationException")).

(** The reference store read as a service: every entry in one page, no
    cursor. *)
Definition serve_all (s : Commit.store) : Fetcher.client :=
  fun _ => Ok {| Fetcher.Parameters :=
                   Some (map (fun kv => {| Fetcher.Name := fst kv;
                                           Fetcher.Value := snd kv |}) s);
                 Fetcher.NextToken := None |}.

(** A store holding [a], [b] and [c] under [/p/]. *)
Definition stored_abc : Commit.store :=
  [(lit "/p/a", lit "1"); (lit "/p/b", lit "2"); (lit "/p/c", lit "3")].

(** A store holding a value of two lines. *)
Definition stored_cert : Commit.store :=
  [(lit "/p/cert", lit "line1" ++ [LF] ++ lit "line2")].

(** Surroundings in which the editor runs and the human replaces the bytes
    of the file it was given by [content]. *)
Definition typing_editor (content : Codec.bytes) : EditSession.env :=
  {| EditSession.tmp_name := lit "/tmp/tmpk3v9.txt";
     EditSession.locale := Codec.utf8;
     EditSession.Popen := fun _ f => (Ok tt, f);
     EditSession.input := fun _ f => (Ok [], f);
     EditSession.call :=
       fun argv f => (Ok 0, EditSession.fs_write (nth 1 argv []) content f) |}.

(** The command line [--path /p/ --editor vim]. *)
Definition p_vim : Main.args :=
  {| Main.path := lit "/p/"; Main.editor := lit "vim" |}.

(** A service that cannot be reached. *)
Definition unreachable : Fetcher.client :=
  fun _ => Raise (ClientError (lit "EndpointConnectionError")).

End Notions.

(** * Properties *)

Import Py.

(** ** Strings and dictionaries *)

Lemma str_eqb_refl (a : str) : str_eqb a a = true.
Proof.
  induction a as [|x a IH]; simpl; [reflexivity|].
  now rewrite N.eqb_refl, IH.
Qed.

Lemma str_eqb_eq (a b : str) : str_eqb a b = true <-> a = b.
Proof.
  split.
  - revert b; induction a as [|x a IH]; intros [|y b] H; simpl in H;
      try discriminate; [reflexivity|].
    apply andb_true_iff in H as [Hxy Hab].
    apply N.eqb_eq in Hxy. f_equal; auto.
  - intros ->. apply str_eqb_refl.
Qed.

Lemma str_eqb_neq (a b : str) : str_eqb a b = false <-> a <> b.
Proof.
  rewrite <- str_eqb_eq. destruct (str_eqb a b); split; congruence.
Qed.

Lemma get_set_same (k v : str) (d : dict) : get (set k v d) k = Some v.
Proof.
  induction d as [|[k' v'] d IH]; simpl.
  - now rewrite str_eqb_refl.
  - destruct (str_eqb k' k) eqn:E; simpl; rewrite E; auto.
Qed.

Lemma get_set_other (k k' v : str) (d : dict) :
  k' <> k -> get (set k v d) k' = get d k'.
Proof.
  intros Hne. induction d as [|[k0 v0] d IH]; simpl.
  - apply not_eq_sym in Hne. apply str_eqb_neq in Hne. now rewrite Hne.
  - destruct (str_eqb k0 k) eqn:E; simpl.
    + apply str_eqb_eq in E; subst k0.
      apply not_eq_sym in Hne. apply str_eqb_neq in Hne. now rewrite Hne.
    + now rewrite IH.
Qed.

Lemma get_None_keys (d : dict) (k : str) : get d k = None <-> ~ In k (keys d).
Proof.
  induction d as [|[k' v'] d IH]; simpl.
  - tauto.
  - destruct (str_eqb k' k) eqn:E.
    + apply str_eqb_eq in E. split; [discriminate | intros H; exfalso; auto].
    + apply str_eqb_neq in E. rewrite IH. tauto.
Qed.

Lemma get_In (d : dict) (k v : str) : get d k = Some v -> In (k, v) d.
Proof.
  induction d as [|[k' v'] d IH]; simpl; [discriminate|].
  destruct (str_eqb k' k) eqn:E.
  - apply str_eqb_eq in E. intros [= ->]. left; congruence.
  - auto.
Qed.

Lemma In_get (d : dict) (k v : str) : wf d -> In (k, v) d -> get d k = Some v.
Proof.
  unfold wf. induction d as [|[k' v'] d IH]; simpl; [tauto|].
  intros Hnd [H|H]; inversion Hnd as [|? ? Hnotin Hnd']; subst.
  - injection H as -> ->. now rewrite str_eqb_refl.
  - destruct (str_eqb k' k) eqn:E; [|auto].
    apply str_eqb_eq in E; subst k'.
    exfalso. apply Hnotin. change k with (fst (k, v)). now apply in_map.
Qed.

Lemma set_fresh (k v : str) (d : dict) :
  ~ In k (keys d) -> set k v d = d ++ [(k, v)].
Proof.
  induction d as [|[k' v'] d IH]; simpl; [reflexivity|].
  intros H. destruct (str_eqb k' k) eqn:E.
  - apply str_eqb_eq in E. exfalso; auto.
  - rewrite IH; auto.
Qed.

Lemma keys_set (k v : str) (d : dict) :
  keys (set k v d) =
  match get d k with Some _ => keys d | None => keys d ++ [k] end.
Proof.
  induction d as [|[k' v'] d IH]; simpl; [reflexivity|].
  destruct (str_eqb k' k) eqn:E; simpl; [reflexivity|].
  rewrite IH. now destruct (get d k).
Qed.

Lemma wf_set (k v : str) (d : dict) : wf d -> wf (set k v d).
Proof.
  unfold wf. intros H. rewrite keys_set.
  destruct (get d k) eqn:E; [assumption|].
  apply get_None_keys in E.
  apply NoDup_rev in H. rewrite <- (rev_involutive (keys d ++ [k])).
  apply NoDup_rev. rewrite rev_app_distr. simpl.
  constructor; [now rewrite <- in_rev | assumption].
Qed.

(** ** Trimming *)

Lemma lstrip_length (s : str) : (List.length (lstrip s) <= List.length s)%nat.
Proof.
  induction s as [|c s IH]; simpl; [lia|].
  destruct (isspace c); simpl; lia.
Qed.

Lemma lstrip_fixed (s : str) :
  lstrip s = s -> s = [] \/ exists c s', s = c :: s' /\ isspace c = false.
Proof.
  destruct s as [|c s]; [now left|]. simpl.
  destruct (isspace c) eqn:E; intros H.
  - pose proof (lstrip_length s) as L. rewrite H in L. simpl in L. lia.
  - right. now exists c, s.
Qed.

Lemma lstrip_app_nonspace (s t : str) (c : char) :
  lstrip s = s -> isspace c = false -> lstrip (s ++ c :: t) = s ++ c :: t.
Proof.
  intros Hs Hc. destruct (lstrip_fixed s Hs) as [-> | (x & s' & -> & Hx)]; simpl.
  - now rewrite Hc.
  - now rewrite Hx.
Qed.

Lemma rstrip_length (s : str) : (List.length (rstrip s) <= List.length s)%nat.
Proof.
  unfold rstrip. rewrite length_rev.
  pose proof (lstrip_length (rev s)) as L. now rewrite length_rev in L.
Qed.

Lemma lstrip_same_length (s : str) :
  List.length (lstrip s) = List.length s -> lstrip s = s.
Proof.
  destruct s as [|c s]; simpl; [reflexivity|].
  destruct (isspace c); [|reflexivity].
  intros H. pose proof (lstrip_length s). lia.
Qed.

Lemma strip_fixed (s : str) : strip s = s -> lstrip s = s /\ rstrip s = s.
Proof.
  unfold strip. intros H.
  assert (L : lstrip s = s).
  { apply lstrip_same_length.
    pose proof (rstrip_length (lstrip s)) as L1.
    pose proof (lstrip_length s) as L2.
    rewrite H in L1. lia. }
  rewrite L in H. auto.
Qed.

Lemma rstrip_fixed_rev (s : str) : rstrip s = s -> lstrip (rev s) = rev s.
Proof.
  unfold rstrip. intros H.
  rewrite <- (rev_involutive (lstrip (rev s))). now rewrite H.
Qed.

Lemma rstrip_app_LF (s : str) : rstrip (s ++ [LF]) = rstrip s.
Proof.
  unfold rstrip. rewrite rev_app_distr. reflexivity.
Qed.

Lemma rstrip_nonspace_app (s t : str) (c : char) :
  rstrip t = t -> isspace c = false -> rstrip (s ++ c :: t) = s ++ c :: t.
Proof.
  intros Ht Hc. unfold rstrip.
  assert (E : rev (s ++ c :: t) = rev t ++ c :: rev s).
  { rewrite rev_app_distr. simpl. now rewrite <- app_assoc. }
  rewrite E, lstrip_app_nonspace; auto using rstrip_fixed_rev.
  now rewrite <- E, rev_involutive.
Qed.

Lemma strip_formatted (k v : str) :
  strip k = k -> strip v = v -> strip (k ++ [EQ] ++ v ++ [LF]) = k ++ EQ :: v.
Proof.
  intros Hk Hv.
  apply strip_fixed in Hk as [Hk _]. apply strip_fixed in Hv as [_ Hv].
  unfold strip. simpl.
  rewrite lstrip_app_nonspace by auto.
  change (k ++ EQ :: v ++ [LF]) with (k ++ (EQ :: v) ++ [LF]).
  rewrite app_assoc, rstrip_app_LF.
  now apply rstrip_nonspace_app.
Qed.

(** ** Splitting on the first separator *)

Lemma cut_first_Some (c : char) (s a b : str) :
  Spec.cut_first c s = Some (a, b) <-> s = a ++ c :: b /\ ~ In c a.
Proof.
  revert a. induction s as [|x s IH]; intros a; simpl.
  - split; [discriminate|]. intros [H _]. now destruct a.
  - destruct (N.eqb_spec x c) as [->|Hne].
    + split.
      * intros [= <- <-]. simpl; auto.
      * intros [H Hnin]. destruct a as [|y a]; simpl in *.
        -- now injection H as ->.
        -- injection H as -> _. exfalso; auto.
    + destruct (Spec.cut_first c s) as [[a' b']|] eqn:E.
      * split.
        -- intros [= <- <-]. destruct (proj1 (IH a') eq_refl) as [-> Hnin].
           split; [reflexivity|]. simpl. intros [H|H]; auto.
        -- intros [H Hnin]. destruct a as [|y a]; simpl in *.
           ++ injection H as -> _. congruence.
           ++ injection H as -> H.
              assert (E' : Some (a', b') = Some (a, b)) by (apply IH; auto).
              now injection E' as -> ->.
      * split; [discriminate|].
        intros [H Hnin]. destruct a as [|y a]; simpl in *.
        -- injection H as -> _. congruence.
        -- injection H as -> H.
           assert (E' : None = Some (a, b)) by (apply IH; auto).
           discriminate.
Qed.

Lemma cut_first_None (c : char) (s : str) :
  Spec.cut_first c s = None <-> contains c s = false.
Proof.
  unfold contains. induction s as [|x s IH]; simpl; [tauto|].
  rewrite (N.eqb_sym c x).
  destruct (x =? c); simpl; [split; discriminate|].
  rewrite <- IH. destruct (Spec.cut_first c s) as [[? ?]|]; split; congruence.
Qed.

Lemma split_scan_exhausted (sep cur s : str) :
  split_scan sep (Some O) 0 cur s = [rev cur ++ s].
Proof.
  revert cur. induction s as [|c s IH]; intros cur; simpl.
  - now rewrite app_nil_r.
  - rewrite IH. simpl. now rewrite <- app_assoc.
Qed.

Lemma split_scan_first (c : char) (cur s : str) :
  split_scan [c] (Some 1%nat) 0 cur s =
  match Spec.cut_first c s with
  | Some (a, b) => [rev cur ++ a; b]
  | None => [rev cur ++ s]
  end.
Proof.
  revert cur. induction s as [|x s IH]; intros cur; simpl.
  - now rewrite app_nil_r.
  - rewrite (N.eqb_sym c x). destruct (x =? c); simpl.
    + rewrite split_scan_exhausted, app_nil_r. reflexivity.
    + rewrite IH. simpl.
      destruct (Spec.cut_first c s) as [[a b]|]; now rewrite <- app_assoc.
Qed.

(** ** The reparse loop *)

Import EditSession.

Lemma parse_line_insert_entry (d : dict) (line : str) :
  parse_line d line = Ok (Spec.insert_entry d line).
Proof.
  unfold parse_line, Spec.insert_entry, Spec.entry_of_line.
  destruct (strip line) as [|c t] eqn:Et; [reflexivity|].
  destruct (contains EQ (c :: t)) eqn:Ec; cbn [negb].
  - unfold split, bind. rewrite split_scan_first.
    destruct (Spec.cut_first EQ (c :: t)) as [[a b]|] eqn:Ecut.
    + reflexivity.
    + apply cut_first_None in Ecut. congruence.
  - apply cut_first_None in Ec. now rewrite Ec.
Qed.

Lemma parse_lines_fold (ls : list str) (d : dict) :
  parse_lines d ls = Ok (fold_left Spec.insert_entry ls d).
Proof.
  revert d. induction ls as [|l ls IH]; intros d; simpl; [reflexivity|].
  rewrite parse_line_insert_entry. simpl. apply IH.
Qed.

Lemma reparse_edited_snapshot (content : str) :
  reparse content = Ok (Spec.edited_snapshot (readlines content)).
Proof. apply parse_lines_fold. Qed.

Lemma get_insert_entry (d : dict) (line k : str) :
  get (Spec.insert_entry d line) k =
  match Spec.entry_of_line line with
  | Some (key, value) => if str_eqb key k then Some value else get d k
  | None => get d k
  end.
Proof.
  unfold Spec.insert_entry.
  destruct (Spec.entry_of_line line) as [[key value]|]; [|reflexivity].
  destruct (str_eqb key k) eqn:E.
  - apply str_eqb_eq in E; subst. apply get_set_same.
  - apply str_eqb_neq in E. apply get_set_other. congruence.
Qed.

Lemma get_fold_insert_entry (ls : list str) (d : dict) (k : str) :
  get (fold_left Spec.insert_entry ls d) k =
  fold_left (fun found line =>
               match Spec.entry_of_line line with
               | Some (key, value) => if str_eqb key k then Some value else found
               | None => found
               end) ls (get d k).
Proof.
  revert d. induction ls as [|l ls IH]; intros d; simpl; [reflexivity|].
  now rewrite IH, get_insert_entry.
Qed.

Lemma wf_insert_entry (d : dict) (line : str) :
  wf d -> wf (Spec.insert_entry d line).
Proof.
  unfold Spec.insert_entry.
  destruct (Spec.entry_of_line line) as [[key value]|]; auto using wf_set.
Qed.

Lemma wf_fold_insert_entry (ls : list str) (d : dict) :
  wf d -> wf (fold_left Spec.insert_entry ls d).
Proof.
  revert d. induction ls as [|l ls IH]; intros d H; simpl;
    auto using wf_insert_entry.
Qed.

(** ** Serialization followed by reading *)

Lemma serialize_from (d : dict) (written : str) :
  fold_left (fun w kv => w ++ format_line (fst kv) (snd kv)) d written =
  written ++ serialize d.
Proof.
  unfold serialize. revert written.
  induction d as [|[k v] d IH]; intros written; simpl.
  - now rewrite app_nil_r.
  - rewrite IH, (IH (format_line k v)). now rewrite app_assoc.
Qed.

Lemma serialize_cons (k v : str) (d : dict) :
  serialize ((k, v) :: d) = format_line k v ++ serialize d.
Proof.
  unfold serialize at 1. simpl. apply serialize_from.
Qed.

Lemma universal_newlines_no_CR (s : str) :
  ~ In CR s -> universal_newlines s = s.
Proof.
  induction s as [|c s IH]; simpl; [reflexivity|].
  intros H. destruct (N.eqb_spec c CR) as [->|Hne].
  - exfalso; auto.
  - f_equal. auto.
Qed.

Lemma lines_from_line (l rest cur : str) :
  ~ In LF l ->
  lines_from cur (l ++ LF :: rest) = (rev cur ++ l ++ [LF]) :: lines_from [] rest.
Proof.
  revert cur. induction l as [|c l IH]; intros cur H; simpl.
  - reflexivity.
  - destruct (N.eqb_spec c LF) as [->|Hne].
    + exfalso. apply H. now left.
    + rewrite IH by (intros H'; apply H; now right).
      simpl. now rewrite <- app_assoc.
Qed.

Lemma key_value_no (c : char) (k v : str) :
  c <> EQ -> ~ In c k -> ~ In c v -> ~ In c (k ++ [EQ] ++ v).
Proof.
  intros H1 Hk Hv Hin.
  apply in_app_or in Hin as [Hin|Hin]; [auto|].
  simpl in Hin. destruct Hin as [Hin|Hin]; [congruence|auto].
Qed.

Lemma serialize_no_CR (d : dict) : Spec.plain d -> ~ In CR (serialize d).
Proof.
  induction d as [|[k v] d IH]; intros Hp; [simpl; tauto|].
  rewrite serialize_cons. unfold format_line.
  destruct (Hp k v (or_introl eq_refl)) as [[(_ & _ & Hk) _] (_ & _ & Hv)].
  intros Hin.
  apply in_app_or in Hin as [Hin|Hin].
  - change (k ++ [EQ] ++ v ++ [LF]) with (k ++ [EQ] ++ (v ++ [LF])) in Hin.
    apply in_app_or in Hin as [Hin|Hin]; [auto|].
    simpl in Hin. destruct Hin as [Hin|Hin]; [discriminate|].
    apply in_app_or in Hin as [Hin|Hin]; [auto|].
    simpl in Hin. destruct Hin as [Hin|[]]. discriminate.
  - apply IH; [|assumption].
    intros k' v' H'. apply Hp. now right.
Qed.

Lemma lines_of_serialize (d : dict) :
  Spec.plain d ->
  lines_from [] (serialize d) = map (fun kv => format_line (fst kv) (snd kv)) d.
Proof.
  induction d as [|[k v] d IH]; intros Hp; [reflexivity|].
  rewrite serialize_cons. simpl map.
  destruct (Hp k v (or_introl eq_refl)) as [[(_ & Hk & _) _] (_ & Hv & _)].
  unfold format_line at 1.
  replace ((k ++ [EQ] ++ v ++ [LF]) ++ serialize d)
    with ((k ++ [EQ] ++ v) ++ LF :: serialize d)
    by (now rewrite <- !app_assoc).
  rewrite lines_from_line.
  - simpl rev. cbn [app]. f_equal.
    + unfold format_line. now rewrite <- !app_assoc.
    + apply IH. intros k' v' H'. apply Hp. now right.
  - apply key_value_no; auto; discriminate.
Qed.

Lemma readlines_serialize (d : dict) :
  Spec.plain d ->
  readlines (serialize d) = map (fun kv => format_line (fst kv) (snd kv)) d.
Proof.
  intros Hp. unfold readlines.
  rewrite universal_newlines_no_CR by now apply serialize_no_CR.
  now apply lines_of_serialize.
Qed.

Lemma entry_of_formatted (k v : str) :
  Spec.plain_key k -> Spec.plain_value v ->
  Spec.entry_of_line (format_line k v) = Some (k, v).
Proof.
  intros [(Hk & _ & _) Heq] (Hv & _ & _).
  unfold Spec.entry_of_line, format_line.
  rewrite strip_formatted by assumption.
  assert (E : Spec.cut_first EQ (k ++ EQ :: v) = Some (k, v))
    by (apply cut_first_Some; auto).
  rewrite E, Hk, Hv.
  now destruct k.
Qed.

Lemma fold_insert_formatted (d acc : dict) :
  Spec.plain d -> wf (acc ++ d) ->
  fold_left Spec.insert_entry
    (map (fun kv => format_line (fst kv) (snd kv)) d) acc = acc ++ d.
Proof.
  revert acc. induction d as [|[k v] d IH]; intros acc Hp Hwf; simpl.
  - now rewrite app_nil_r.
  - destruct (Hp k v (or_introl eq_refl)) as [Hk Hv].
    unfold Spec.insert_entry at 2. rewrite entry_of_formatted by assumption.
    assert (Hfresh : ~ In k (keys acc)).
    { unfold wf, keys in Hwf. rewrite map_app in Hwf. simpl in Hwf.
      apply NoDup_remove_2 in Hwf. intros Hin. apply Hwf.
      apply in_or_app. now left. }
    rewrite set_fresh by assumption.
    rewrite IH.
    + now rewrite <- app_assoc.
    + intros k' v' H'. apply Hp. now right.
    + now rewrite <- app_assoc.
Qed.

(** ** The commit loop *)

Import Commit.

Section CommitFacts.

Variable service : Type.
Variable put_parameter : service -> put_request -> service * result unit.
Variables path : str.
Variable params : dict.

Local Abbreviation visit := (Commit.visit service put_parameter path params).
Local Abbreviation commit_loop :=
  (Commit.commit_loop service put_parameter path params).
Local Abbreviation visited := (Commit.visited service put_parameter path params).
Local Abbreviation puts_from := (Commit.puts_from path params).
Local Abbreviation changes_from := (Commit.changes_from params).
Local Abbreviation failures_printed := (Commit.failures_printed path).

Lemma visit_visited (k v : str) (st : state service) :
  visited k v st (fst (visit k v st)) (snd (visit k v st)).
Proof.
  unfold Commit.visit, differs, lookup.
  destruct (get params k) as [old|] eqn:Eg.
  - destruct (str_eqb old v) eqn:Eo; simpl.
    + apply str_eqb_eq in Eo; subst. now constructor.
    + apply str_eqb_neq in Eo. unfold try_put. simpl.
      destruct (put_parameter (ssm st) (put_for path k v)) as [ssm' outcome] eqn:Ep.
      simpl. now apply visited_changed.
  - simpl. now constructor.
Qed.

(** A property of the state that every visit keeps is kept by the loop. *)
Lemma commit_loop_keeps (Inv : state service -> Prop) (items : dict) :
  (forall k v st, In (k, v) items -> Inv st -> Inv (snd (visit k v st))) ->
  forall st, Inv st -> Inv (snd (commit_loop items st)).
Proof.
  induction items as [|[k v] items IH]; intros Hstep st Hst; simpl; [assumption|].
  pose proof (Hstep k v st (or_introl eq_refl) Hst) as H1.
  destruct (visit k v st) as [[[]|e] st1]; simpl in *; [|assumption].
  apply IH; [|assumption].
  intros k' v' st' Hin. apply Hstep. now right.
Qed.

Lemma put_for_key (k k' v v' : str) :
  put_for path k v = put_for path k' v' -> k = k' /\ v = v'.
Proof.
  unfold put_for. intros [= Hn Hv]. split; [|assumption].
  now apply app_inv_head in Hn.
Qed.

Lemma visit_puts_from (items : dict) (k v : str) (st : state service) :
  In (k, v) items -> puts_from items st -> puts_from items (snd (visit k v st)).
Proof.
  intros Hin Hst.
  destruct (visit_visited k v st) as [| |old ssm' outcome Hg Hne Hp]; try assumption.
  intros req o Hreq. simpl in Hreq.
  apply in_app_or in Hreq as [Hreq|[[= <- <-]|[]]]; [eauto|].
  exists k, v. eauto.
Qed.

Lemma visit_changes_from (items : dict) (k v : str) (st : state service) :
  In (k, v) items -> changes_from items st ->
  changes_from items (snd (visit k v st)).
Proof.
  intros Hin Hst.
  destruct (visit_visited k v st) as [| |old ssm' outcome Hg Hne Hp]; try assumption.
  intros k' old' v' Hc. simpl in Hc.
  apply in_app_or in Hc as [Hc|[[= <- <- <-]|[]]]; auto.
Qed.

Lemma visit_failures_printed (k v : str) (st : state service) :
  failures_printed st -> failures_printed (snd (visit k v st)).
Proof.
  intros Hst.
  destruct (visit_visited k v st) as [| |old ssm' outcome Hg Hne Hp]; try assumption.
  intros k' v' e Hin. simpl in *.
  apply in_app_or in Hin as [Hin|[Heq|[]]].
  - specialize (Hst _ _ _ Hin). destruct outcome; auto using in_or_app.
  - pose proof (f_equal fst Heq) as Hreq. pose proof (f_equal snd Heq) as Hout.
    simpl in Hreq, Hout. apply put_for_key in Hreq as [-> ->]. subst outcome.
    apply in_or_app. right. now left.
Qed.

Lemma commit_loop_puts_from (items : dict) (st : state service) :
  puts_from items st -> puts_from items (snd (commit_loop items st)).
Proof.
  apply (commit_loop_keeps (puts_from items)).
  intros; now apply visit_puts_from.
Qed.

Lemma commit_loop_changes_from (items : dict) (st : state service) :
  changes_from items st -> changes_from items (snd (commit_loop items st)).
Proof.
  apply (commit_loop_keeps (changes_from items)).
  intros; now apply visit_changes_from.
Qed.

Lemma commit_loop_failures_printed (items : dict) (st : state service) :
  failures_printed st -> failures_printed (snd (commit_loop items st)).
Proof.
  apply (commit_loop_keeps failures_printed).
  intros; now apply visit_failures_printed.
Qed.

(** [commit] ends in the state the loop left, up to the report it prints. *)
Lemma commit_state (s0 : service) (updated_params : dict) :
  let st0 := {| changes := []; ssm := s0; stdout := []; puts := [] |} in
  let st := snd (commit_loop updated_params st0) in
  let st' := snd (commit service put_parameter s0 path params updated_params) in
  changes st' = changes st /\ puts st' = puts st /\ ssm st' = ssm st /\
  exists tail, stdout st' = stdout st ++ tail.
Proof.
  unfold commit. simpl.
  destruct (Commit.commit_loop _ _ _ _ _ _) as [[[]|e] st]; simpl.
  - repeat split; auto. destruct (changes st); eauto.
  - repeat split; auto. exists []. now rewrite app_nil_r.
Qed.

(** With nothing to change the loop does nothing. *)
Lemma commit_loop_unchanged (items : dict) (st : state service) :
  (forall k v, In (k, v) items -> get params k = Some v) ->
  commit_loop items st = (Ok tt, st).
Proof.
  induction items as [|[k v] items IH]; intros H; simpl; [reflexivity|].
  unfold Commit.visit, differs.
  rewrite (H k v (or_introl eq_refl)), str_eqb_refl. simpl.
  apply IH. intros k' v' Hin. apply H. now right.
Qed.

(** A key that the original snapshot lacks stops the loop with [KeyError]. *)
Lemma commit_loop_new_key (items : dict) (st : state service) (k : str) :
  In k (keys items) -> get params k = None ->
  exists k', fst (commit_loop items st) = Raise (KeyError k').
Proof.
  revert st. induction items as [|[k0 v0] items IH]; intros st Hin Hg; simpl in *.
  - contradiction.
  - pose proof (visit_visited k0 v0 st) as Hv.
    destruct (visit k0 v0 st) as [r st1]. simpl in Hv.
    inversion Hv; subst; simpl.
    + destruct Hin as [->|Hin]; [congruence|]. now apply IH.
    + now exists k0.
    + destruct Hin as [->|Hin]; [congruence|]. now apply IH.
Qed.

End CommitFacts.

(** Two runs of the loop against two services take the same course: the
    outcome of a call changes neither which calls follow nor how the loop
    ends. *)
Lemma commit_loop_same_course (S1 S2 : Type)
  (put1 : S1 -> put_request -> S1 * result unit)
  (put2 : S2 -> put_request -> S2 * result unit)
  (path : str) (params items : dict) (st1 : state S1) (st2 : state S2) :
  changes st1 = changes st2 ->
  map fst (puts st1) = map fst (puts st2) ->
  fst (commit_loop S1 put1 path params items st1) =
    fst (commit_loop S2 put2 path params items st2) /\
  changes (snd (commit_loop S1 put1 path params items st1)) =
    changes (snd (commit_loop S2 put2 path params items st2)) /\
  map fst (puts (snd (commit_loop S1 put1 path params items st1))) =
    map fst (puts (snd (commit_loop S2 put2 path params items st2))).
Proof.
  revert st1 st2. induction items as [|[k v] items IH]; intros st1 st2 Hc Hp.
  - simpl. auto.
  - simpl. unfold visit, try_put.
    destruct (differs params k v); [|now apply IH].
    destruct (lookup params k) as [old|e]; [|simpl; auto].
    destruct (put1 _ _) as [s1' o1]. destruct (put2 _ _) as [s2' o2].
    apply IH; simpl.
    + now rewrite Hc.
    + rewrite !map_app. simpl. now rewrite Hp.
Qed.

(** When every edited key exists in the original snapshot, the loop ends
    normally after one call per changed item, in the order of the edit. *)
Lemma commit_loop_known_keys (service : Type)
  (put_parameter : service -> put_request -> service * result unit)
  (path : str) (params items : dict) (st : state service) :
  (forall k, In k (keys items) -> get params k <> None) ->
  fst (commit_loop service put_parameter path params items st) = Ok tt /\
  map fst (puts (snd (commit_loop service put_parameter path params items st))) =
    map fst (puts st) ++
    map (fun kv => put_for path (fst kv) (snd kv))
        (filter (fun kv => differs params (fst kv) (snd kv)) items).
Proof.
  revert st. induction items as [|[k v] items IH]; intros st Hk.
  - simpl. now rewrite app_nil_r.
  - assert (Hk' : forall k', In k' (keys items) -> get params k' <> None)
      by (intros k' Hin; apply Hk; now right).
    simpl. unfold visit, try_put, lookup.
    destruct (differs params k v) eqn:Ed; [|now apply IH].
    destruct (get params k) as [old|] eqn:Eg.
    + destruct (put_parameter _ _) as [s' o].
      match goal with
      | |- context [commit_loop _ _ _ _ _ ?st'] =>
        destruct (IH st' Hk') as [IH1 IH2]
      end.
      split; [exact IH1|].
      rewrite IH2. simpl. rewrite map_app. simpl. now rewrite <- app_assoc.
    + exfalso. apply (Hk k); [now left | assumption].
Qed.

Lemma startswith_app (p s : str) : startswith p (p ++ s) = true.
Proof.
  induction p as [|c p IH]; simpl; [reflexivity|].
  now rewrite N.eqb_refl, IH.
Qed.

(** Against the reference store, a name that no edited key maps to keeps its
    stored value. *)
Lemma store_untouched (failing : str -> bool) (path : str) (params items : dict)
  (name : str) (st : state store) :
  (forall k, In k (keys items) -> name <> path ++ k) ->
  get (ssm (snd (commit_loop store (store_put failing) path params items st))) name
  = get (ssm st) name.
Proof.
  intros Hname.
  apply (commit_loop_keeps store (store_put failing) path params
           (fun st' => get (ssm st') name = get (ssm st) name) items);
    [|reflexivity].
  intros k v st' Hin Hst'.
  pose proof (visit_visited store (store_put failing) path params k v st') as Hv.
  destruct (visit store (store_put failing) path params k v st') as [r st''].
  simpl in *. inversion Hv as [| |old ssm' outcome Hg Hne Hp]; subst; auto.
  simpl. unfold store_put in Hp. simpl in Hp.
  destruct (failing (path ++ k)); injection Hp as <- <-; [assumption|].
  rewrite get_set_other; [assumption|].
  apply Hname. change k with (fst (k, v)). now apply in_map.
Qed.

Lemma commit_fst (service : Type)
  (put_parameter : service -> put_request -> service * result unit)
  (s0 : service) (path : str) (params updated_params : dict) :
  fst (commit service put_parameter s0 path params updated_params) =
  fst (commit_loop service put_parameter path params updated_params
         {| changes := []; ssm := s0; stdout := []; puts := [] |}).
Proof.
  unfold commit.
  now destruct (commit_loop _ _ _ _ _ _) as [[[]|e] st].
Qed.

Lemma commit_puts_from (service : Type)
  (put_parameter : service -> put_request -> service * result unit)
  (s0 : service) (path : str) (params updated_params : dict) :
  puts_from path params updated_params
    (snd (commit service put_parameter s0 path params updated_params)).
Proof.
  destruct (commit_state service put_parameter path params s0 updated_params)
    as (_ & Hp & _).
  unfold puts_from. rewrite Hp.
  apply commit_loop_puts_from. intros req o [].
Qed.

Lemma commit_changes_from (service : Type)
  (put_parameter : service -> put_request -> service * result unit)
  (s0 : service) (path : str) (params updated_params : dict) :
  changes_from params updated_params
    (snd (commit service put_parameter s0 path params updated_params)).
Proof.
  destruct (commit_state service put_parameter path params s0 updated_params)
    as (Hc & _).
  unfold changes_from. rewrite Hc.
  apply commit_loop_changes_from. intros k old v [].
Qed.

Lemma commit_failures_printed (service : Type)
  (put_parameter : service -> put_request -> service * result unit)
  (s0 : service) (path : str) (params updated_params : dict) :
  failures_printed path
    (snd (commit service put_parameter s0 path params updated_params)).
Proof.
  destruct (commit_state service put_parameter path params s0 updated_params)
    as (_ & Hp & _ & tail & Ho).
  unfold failures_printed. rewrite Hp, Ho. intros k v e Hin.
  apply in_or_app. left.
  revert k v e Hin.
  apply (commit_loop_failures_printed service put_parameter path params).
  intros k v e [].
Qed.

(** * The claims *)

Import Examples.

(** ** Diff and commit *)

(** C1 (the code departs from the claim).  On the specification's own
    example, original [{a: 1, b: 2}] and edited [{a: 1, b: 3, c: 4}], the loop
    records and writes the change of [b] and then stops with [KeyError] at
    the new key [c], whatever the service answers: line 76 compares with
    [params.get(k)], line 77 reads [params[k]].  The ChangeSet of the
    specification has the triples of [b] and of [c]; the program records
    the one of [b], none for [c], and reports nothing. *)
Theorem C1_new_key_raises_KeyError (service : Type)
  (put_parameter : service -> put_request -> service * result unit)
  (s0 : service) :
  fst (commit service put_parameter s0 prefix original_ab edited_abc)
    = Raise (KeyError (lit "c")) /\
  changes (snd (commit service put_parameter s0 prefix original_ab edited_abc))
    = [(lit "b", lit "2", lit "3")] /\
  Spec.change_set original_ab edited_abc
    = [(lit "b", Some (lit "2"), lit "3"); (lit "c", None, lit "4")] /\
  map fst (puts (snd (commit service put_parameter s0 prefix original_ab edited_abc)))
    = [put_for prefix (lit "b") (lit "3")] /\
  ~ In NoChanges
      (stdout (snd (commit service put_parameter s0 prefix original_ab edited_abc))) /\
  forall rows,
    ~ In (ChangesTable rows)
      (stdout (snd (commit service put_parameter s0 prefix original_ab edited_abc))).
Proof.
  unfold commit. cbn. unfold try_put. cbn.
  destruct (put_parameter s0 _) as [s1 [[]|e]]; cbn;
    repeat split; try reflexivity; intros; intuition discriminate.
Qed.

(** C6.  A refused write does not change the course of the commit.  The run
    against any service [put1] prints a line for every call that raised; it
    makes the same calls, in the same order, and ends the same way as the
    run against any other service [put2] (one in which no call fails, for
    instance); and when every edited key exists in the original snapshot it
    ends normally after one call for each changed key. *)
Theorem C6_write_failure_does_not_abort (S1 S2 : Type)
  (put1 : S1 -> put_request -> S1 * result unit)
  (put2 : S2 -> put_request -> S2 * result unit)
  (s1 : S1) (s2 : S2) (path : str) (params updated_params : dict) :
  failures_printed path (snd (commit S1 put1 s1 path params updated_params)) /\
  fst (commit S1 put1 s1 path params updated_params) =
    fst (commit S2 put2 s2 path params updated_params) /\
  map fst (puts (snd (commit S1 put1 s1 path params updated_params))) =
    map fst (puts (snd (commit S2 put2 s2 path params updated_params))) /\
  ((forall k, In k (keys updated_params) -> get params k <> None) ->
   fst (commit S1 put1 s1 path params updated_params) = Ok tt /\
   map fst (puts (snd (commit S1 put1 s1 path params updated_params))) =
     map (fun kv => put_for path (fst kv) (snd kv))
         (filter (fun kv => differs params (fst kv) (snd kv)) updated_params)).
Proof.
  pose proof (commit_state S1 put1 path params s1 updated_params) as (_ & Hp1 & _).
  pose proof (commit_state S2 put2 path params s2 updated_params) as (_ & Hp2 & _).
  pose proof (commit_loop_same_course S1 S2 put1 put2 path params updated_params
                {| changes := []; ssm := s1; stdout := []; puts := [] |}
                {| changes := []; ssm := s2; stdout := []; puts := [] |}
                eq_refl eq_refl) as (Hr & _ & Hp).
  split; [apply commit_failures_printed|].
  split; [now rewrite !commit_fst|].
  split; [now rewrite Hp1, Hp2|].
  intros Hknown. rewrite commit_fst, Hp1.
  now apply commit_loop_known_keys.
Qed.

(** The specification's scenario for C6: three changed keys, the write of
    [b] refused.  All three calls are made, [a] and [c] reach the store, the
    refusal of [b] is printed, and the program ends normally. *)
Lemma C6_one_of_three_writes_fails :
  (fst (commit store (store_put refuses_b) [] prefix original_abc edited_all)
     = Ok tt /\
   map fst (puts (snd (commit store (store_put refuses_b) [] prefix
                         original_abc edited_all)))
     = [put_for prefix (lit "a") (lit "10");
        put_for prefix (lit "b") (lit "20");
        put_for prefix (lit "c") (lit "30")]) /\
  ssm (snd (commit store (store_put refuses_b) [] prefix original_abc edited_all))
    = [(lit "/p/a", lit "10"); (lit "/p/c", lit "30")] /\
  In (FailedToUpdate (lit "b") (ClientError (lit "/p/b")))
     (stdout (snd (commit store (store_put refuses_b) [] prefix
                     original_abc edited_all))).
Proof.
  split.
  - apply (C6_write_failure_does_not_abort store store
             (store_put refuses_b) (store_put accepts_all) [] []
             prefix original_abc edited_all).
    intros k Hin. simpl in Hin.
    destruct Hin as [<-|[<-|[<-|[]]]]; discriminate.
  - split; [reflexivity|]. vm_compute. left. reflexivity.
Defined.

(** C7.  When the edited snapshot equals the original one, the commit makes
    no call, records no change, prints that nothing changed and ends
    normally; and in every run, no call is made for a key whose edited value
    is its original value. *)
Theorem C7_no_write_for_unchanged_keys (service : Type)
  (put_parameter : service -> put_request -> service * result unit)
  (s0 : service) (path : str) (params updated_params : dict) :
  wf updated_params ->
  (dict_eq updated_params params ->
   commit service put_parameter s0 path params updated_params =
     (Ok tt, {| changes := []; ssm := s0; stdout := [NoChanges]; puts := [] |})) /\
  (forall k v, get updated_params k = Some v -> get params k = Some v ->
     forall req outcome,
       In (req, outcome)
          (puts (snd (commit service put_parameter s0 path params updated_params))) ->
       Name req <> path ++ k).
Proof.
  intros Hwf. split.
  - intros Heq. unfold commit.
    rewrite commit_loop_unchanged; [reflexivity|].
    intros k v Hin. rewrite <- Heq. now apply In_get.
  - intros k v Hu Hp req outcome Hin Hname.
    destruct (commit_puts_from service put_parameter s0 path params
                updated_params req outcome Hin)
      as (k' & v' & -> & Hin' & old & Hold & Hne).
    simpl in Hname. apply app_inv_head in Hname. subst k'.
    apply (In_get _ _ _ Hwf) in Hin'. congruence.
Qed.

Lemma C7_same_snapshot_no_writes :
  commit store (store_put accepts_all) [] prefix original_ab original_ab =
    (Ok tt, {| changes := []; ssm := []; stdout := [NoChanges]; puts := [] |}).
Proof.
  assert (Hwf : wf original_ab).
  { unfold wf. simpl. repeat constructor; simpl; intuition discriminate. }
  apply (proj1 (C7_no_write_for_unchanged_keys store (store_put accepts_all) []
                  prefix original_ab original_ab Hwf)).
  intros k. reflexivity.
Defined.

(** C8.  A key that the edited snapshot lacks is never visited: it is in no
    row of [changes], no call carries its name (and [put_parameter] is the
    only request the commit ever makes), and in the reference store the
    entry under its name is what it was before the commit. *)
Theorem C8_deleted_keys_are_ignored (service : Type)
  (put_parameter : service -> put_request -> service * result unit)
  (s0 : service) (path : str) (params updated_params : dict) (k : str) :
  get updated_params k = None ->
  (forall old v,
     ~ In (k, old, v)
          (changes (snd (commit service put_parameter s0 path params updated_params)))) /\
  (forall req outcome,
     In (req, outcome)
        (puts (snd (commit service put_parameter s0 path params updated_params))) ->
     Name req <> path ++ k) /\
  (forall (failing : str -> bool) (stored : store),
     get (ssm (snd (commit store (store_put failing) stored path params updated_params)))
         (path ++ k)
     = get stored (path ++ k)).
Proof.
  intros Hk. apply get_None_keys in Hk.
  assert (Hnot : forall v, ~ In (k, v) updated_params).
  { intros v Hin. apply Hk. change k with (fst (k, v)). now apply in_map. }
  repeat split.
  - intros old v Hin.
    apply (commit_changes_from service put_parameter s0 path params) in Hin.
    destruct Hin as [Hin _]. now apply Hnot in Hin.
  - intros req outcome Hin Hname.
    destruct (commit_puts_from service put_parameter s0 path params
                updated_params req outcome Hin)
      as (k' & v' & -> & Hin' & _).
    simpl in Hname. apply app_inv_head in Hname. subst k'.
    now apply Hnot in Hin'.
  - intros failing stored.
    destruct (commit_state store (store_put failing) path params stored
                updated_params) as (_ & _ & Hs & _).
    rewrite Hs.
    apply (store_untouched failing path params updated_params (path ++ k)
             {| changes := []; ssm := stored; stdout := []; puts := [] |}).
    intros k' Hin Heq. apply app_inv_head in Heq. now subst k'.
Qed.

Lemma C8_dropped_key_keeps_its_entry :
  (forall old v,
     ~ In (lit "b", old, v)
          (changes (snd (commit store (store_put accepts_all)
                           [(lit "/p/b", lit "2")] prefix original_abc
                           edited_b_dropped)))) /\
  get (ssm (snd (commit store (store_put accepts_all) [(lit "/p/b", lit "2")]
                   prefix original_abc edited_b_dropped)))
      (lit "/p/b")
  = Some (lit "2").
Proof.
  destruct (C8_deleted_keys_are_ignored store (store_put accepts_all)
              [(lit "/p/b", lit "2")] prefix original_abc edited_b_dropped
              (lit "b") eq_refl) as (Hc & _ & Hs).
  split; [exact Hc|].
  exact (Hs accepts_all [(lit "/p/b", lit "2")]).
Defined.

(** C10.  Every call made during the commit is
    [put_parameter(Name=path + k, Value=v, Type='SecureString', Overwrite=True)]
    for a key [k] of the edited snapshot and its edited value [v]; so the
    name starts with the path prefix. *)
Theorem C10_writes_carry_prefix_and_edited_value (service : Type)
  (put_parameter : service -> put_request -> service * result unit)
  (s0 : service) (path : str) (params updated_params : dict)
  (req : put_request) (outcome : result unit) :
  wf updated_params ->
  In (req, outcome)
     (puts (snd (commit service put_parameter s0 path params updated_params))) ->
  exists k v,
    req = put_for path k v /\
    Name req = path ++ k /\ Value req = v /\
    get updated_params k = Some v /\
    startswith path (Name req) = true.
Proof.
  intros Hwf Hin.
  destruct (commit_puts_from service put_parameter s0 path params
              updated_params req outcome Hin)
    as (k & v & -> & Hin' & _).
  exists k, v. repeat split.
  - now apply In_get.
  - apply startswith_app.
Qed.

Lemma C10_write_of_b :
  exists k v,
    put_for prefix (lit "b") (lit "20") = put_for prefix k v /\
    Name (put_for prefix (lit "b") (lit "20")) = prefix ++ k /\
    Value (put_for prefix (lit "b") (lit "20")) = v /\
    get edited_all k = Some v /\
    startswith prefix (Name (put_for prefix (lit "b") (lit "20"))) = true.
Proof.
  apply (C10_writes_carry_prefix_and_edited_value store (store_put refuses_b) []
           prefix original_abc edited_all
           (put_for prefix (lit "b") (lit "20"))
           (Raise (ClientError (lit "/p/b")))).
  - unfold wf. simpl. repeat constructor; simpl; intuition discriminate.
  - vm_compute. right. left. reflexivity.
Defined.

(** ** The edit session *)

Lemma contains_In (c : char) (s : str) : contains c s = true <-> In c s.
Proof.
  unfold contains. rewrite existsb_exists. split.
  - intros (x & Hin & Heq). apply N.eqb_eq in Heq. now subst.
  - intros Hin. exists c. split; [assumption | apply N.eqb_refl].
Qed.

Lemma cut_first_None_In (c : char) (s : str) :
  Spec.cut_first c s = None <-> ~ In c s.
Proof.
  rewrite cut_first_None, <- contains_In.
  destruct (contains c s); split; congruence.
Qed.

(** *** Text and bytes *)

Import Codec.

Lemma some_inj {A} (x y : A) : Some x = Some y -> x = y.
Proof. congruence. Qed.

Lemma utf8_decode_cons (b0 : N) (r0 : bytes) :
  utf8_decode (b0 :: r0) =
  if b0 <? 128 then push b0 (utf8_decode r0)
  else if (194 <=? b0) && (b0 <=? 223) then
    match r0 with
    | b1 :: r1 =>
      if continuation b1
      then push ((b0 - 192) * 64 + (b1 - 128)) (utf8_decode r1)
      else None
    | _ => None
    end
  else if (224 <=? b0) && (b0 <=? 239) then
    match r0 with
    | b1 :: b2 :: r2 =>
      let c := (b0 - 224) * 4096 + (b1 - 128) * 64 + (b2 - 128) in
      if continuation b1 && continuation b2 && (2048 <=? c)
         && negb (surrogate c)
      then push c (utf8_decode r2)
      else None
    | _ => None
    end
  else if (240 <=? b0) && (b0 <=? 244) then
    match r0 with
    | b1 :: b2 :: b3 :: r3 =>
      let c := (b0 - 240) * 262144 + (b1 - 128) * 4096 + (b2 - 128) * 64
               + (b3 - 128) in
      if continuation b1 && continuation b2 && continuation b3
         && (65536 <=? c) && (c <? 1114112)
      then push c (utf8_decode r3)
      else None
    | _ => None
    end
  else None.
Proof. reflexivity. Qed.

Ltac split_tests :=
  repeat match goal with
         | |- context [?a <? ?b] => destruct (N.ltb_spec a b); try lia
         | |- context [?a <=? ?b] => destruct (N.leb_spec a b); try lia
         end.

(** The bytes of one character decode to that character. *)
Lemma utf8_decode_char (c : char) (a r : bytes) :
  utf8_encode_char c = Some a ->
  utf8_decode (a ++ r) = push c (utf8_decode r).
Proof.
  unfold utf8_encode_char, surrogate.
  assert (D1 : c / 4096 = c / 64 / 64) by (now rewrite N.Div0.div_div).
  assert (D2 : c / 262144 = c / 64 / 64 / 64) by (now rewrite !N.Div0.div_div).
  rewrite D1, D2.
  pose proof (N.div_mod c 64 ltac:(lia)) as Q1.
  pose proof (N.mod_lt c 64 ltac:(lia)) as R1.
  pose proof (N.div_mod (c / 64) 64 ltac:(lia)) as Q2.
  pose proof (N.mod_lt (c / 64) 64 ltac:(lia)) as R2.
  pose proof (N.div_mod (c / 64 / 64) 64 ltac:(lia)) as Q3.
  pose proof (N.mod_lt (c / 64 / 64) 64 ltac:(lia)) as R3.
  clear D1 D2.
  set (q1 := c / 64) in *. set (r1 := c mod 64) in *.
  set (q2 := q1 / 64) in *. set (r2 := q1 mod 64) in *.
  set (q3 := q2 / 64) in *. set (r3 := q2 mod 64) in *.
  clearbody q3 r3. clearbody q2 r2. clearbody q1 r1.
  destruct (N.ltb_spec c 128) as [H1|H1].
  { intros Ha. apply some_inj in Ha. subst a.
    cbn [app]. rewrite utf8_decode_cons. split_tests. reflexivity. }
  destruct (N.ltb_spec c 2048) as [H2|H2].
  { intros Ha. apply some_inj in Ha. subst a.
    cbn [app]. rewrite utf8_decode_cons. unfold continuation.
    replace ((192 + q1 - 192) * 64 + (128 + r1 - 128)) with c by lia.
    split_tests. reflexivity. }
  destruct (N.ltb_spec c 65536) as [H3|H3].
  { destruct ((55296 <=? c) && (c <=? 57343)) eqn:Es; [discriminate|].
    intros Ha. apply some_inj in Ha. subst a.
    cbn [app]. rewrite utf8_decode_cons. cbv zeta.
    unfold continuation, surrogate.
    replace ((224 + q2 - 224) * 4096 + (128 + r2 - 128) * 64 + (128 + r1 - 128))
      with c by lia.
    rewrite Es. split_tests. reflexivity. }
  destruct (N.ltb_spec c 1114112) as [H4|H4]; [|discriminate].
  intros Ha. apply some_inj in Ha. subst a.
  cbn [app]. rewrite utf8_decode_cons. cbv zeta. unfold continuation.
  replace ((240 + q3 - 240) * 262144 + (128 + r3 - 128) * 4096
           + (128 + r2 - 128) * 64 + (128 + r1 - 128)) with c by lia.
  split_tests. reflexivity.
Qed.

(** UTF-8 reads back what it wrote. *)
Lemma utf8_faithful : faithful utf8.
Proof.
  split; [reflexivity|]. simpl.
  induction s as [|c s IH]; intros b rest t Hb Hrest; simpl in Hb.
  - apply some_inj in Hb. now subst b.
  - destruct (utf8_encode_char c) as [a|] eqn:Ec; [|discriminate].
    destruct (utf8_encode s) as [b'|] eqn:Es; [|discriminate].
    apply some_inj in Hb. subst b.
    rewrite <- app_assoc, (utf8_decode_char c a _ Ec).
    now rewrite (IH b' rest t eq_refl Hrest).
Qed.

(** When every line is encoded, the file holds bytes that a faithful codec
    decodes to the text of the lines. *)
Lemma write_lines_decodes (c : codec) (items : dict) (written out : bytes) :
  faithful c -> write_lines c items written = (Ok tt, out) ->
  exists enc, out = written ++ enc /\ decode c enc = Some (serialize items).
Proof.
  intros [Hnil Hcat]. revert written.
  induction items as [|[k v] items IH]; intros written; simpl.
  - intros [= <-]. exists []. now rewrite app_nil_r.
  - destruct (encode c (format_line k v)) as [b|] eqn:Eb; [|discriminate].
    intros H. destruct (IH _ H) as (enc & -> & Hdec).
    exists (b ++ enc). split; [now rewrite app_assoc|].
    rewrite serialize_cons. now apply Hcat.
Qed.

Lemma write_lines_encodable (c : codec) (items : dict) (written : bytes) :
  (forall k v, In (k, v) items -> encode c (format_line k v) <> None) ->
  fst (write_lines c items written) = Ok tt.
Proof.
  revert written. induction items as [|[k v] items IH]; intros written H; simpl;
    [reflexivity|].
  destruct (encode c (format_line k v)) as [b|] eqn:Eb.
  - apply IH. intros k' v' Hin. apply H. now right.
  - exfalso. apply (H k v); [now left | assumption].
Qed.

Lemma reparse_file_decoded (c : codec) (p : str) (f : fs) (b : bytes)
  (content : str) :
  f p = Some b -> decode c b = Some content ->
  reparse_file c p f = (Ok (Spec.edited_snapshot (readlines content)), f).
Proof.
  intros Hf Hd. unfold reparse_file, read_text.
  now rewrite Hf, Hd, reparse_edited_snapshot.
Qed.

Lemma written_file_reads_back (c : codec) (p : str) (parameters : dict)
  (f f1 : fs) :
  wf parameters -> Spec.plain parameters -> faithful c ->
  create_and_write c p parameters f = (Ok tt, f1) ->
  exists b, f1 p = Some b /\ decode c b = Some (serialize parameters).
Proof.
  intros Hwf Hplain Hc. unfold create_and_write.
  destruct (write_lines c parameters []) as [r out] eqn:Ew. simpl.
  intros [= -> <-].
  destruct (write_lines_decodes c parameters [] out Hc Ew) as (enc & -> & Hd).
  exists enc. split; [|assumption].
  unfold fs_write. now rewrite str_eqb_refl.
Qed.

(** C5, the claim as stated fails: reading raises on a file that the codec
    of the locale cannot decode.  Under UTF-8 the bytes of [café=1] saved in
    Latin-1 make lines 44-45 raise [UnicodeDecodeError]. *)
Lemma C5_undecodable_file_raises :
  reparse_file utf8 (lit "/tmp/tmpk3v9.txt")
    (fs_write (lit "/tmp/tmpk3v9.txt") latin1_document empty_fs)
  = (Raise UnicodeDecodeError,
     fs_write (lit "/tmp/tmpk3v9.txt") latin1_document empty_fs).
Proof. reflexivity. Qed.

(** C5 (amended).  For a file that exists and that the codec of the locale
    decodes, reading it back does not raise, and its result is the
    EditedSnapshot of the specification's sentence: the lines of the decoded
    document taken in order, each trimmed, a line that is then empty or has
    no [=] skipped, every other line cut at its first [=] into a key and a
    value that are trimmed and inserted.  The value found under a key is
    that of the last line carrying the key.  The cut is at the first [=]:
    what is before it has none.  The document made of a blank line, a line
    without [=] and the line [x=y=z] gives exactly [{x: "y=z"}]. *)
Theorem C5_reparse_is_permissive (c : codec) (p : str) (f : fs) (b : bytes)
  (content : str) :
  f p = Some b -> decode c b = Some content ->
  reparse_file c p f = (Ok (Spec.edited_snapshot (readlines content)), f) /\
  reparse content = Ok (Spec.edited_snapshot (readlines content)) /\
  (forall lines k,
     get (Spec.edited_snapshot lines) k = Spec.last_value k lines) /\
  (forall lines, wf (Spec.edited_snapshot lines)) /\
  (forall ch s before after,
     Spec.cut_first ch s = Some (before, after) <->
     s = before ++ ch :: after /\ ~ In ch before) /\
  (forall ch s, Spec.cut_first ch s = None <-> ~ In ch s) /\
  reparse permissive_document = Ok [(lit "x", lit "y=z")].
Proof.
  intros Hf Hd.
  split; [now apply reparse_file_decoded with b|].
  split; [apply reparse_edited_snapshot|].
  split; [intros lines k; apply get_fold_insert_entry|].
  split; [intros lines; apply wf_fold_insert_entry; constructor|].
  split; [exact cut_first_Some|].
  split; [exact cut_first_None_In|].
  reflexivity.
Qed.

Lemma C5_permissive_document_is_read :
  reparse_file utf8 (lit "/tmp/tmpk3v9.txt")
    (fs_write (lit "/tmp/tmpk3v9.txt") permissive_document empty_fs)
  = (Ok [(lit "x", lit "y=z")],
     fs_write (lit "/tmp/tmpk3v9.txt") permissive_document empty_fs).
Proof.
  exact (proj1 (C5_reparse_is_permissive utf8 (lit "/tmp/tmpk3v9.txt")
                  (fs_write (lit "/tmp/tmpk3v9.txt") permissive_document empty_fs)
                  permissive_document permissive_document eq_refl eq_refl)).
Defined.

(** C3, the claim as stated fails: a value of two lines comes back as its
    first line only. *)
Lemma C3_multiline_value_is_truncated :
  reparse (serialize multiline_snapshot) = Ok [(lit "cert", lit "line1")] /\
  ~ dict_eq [(lit "cert", lit "line1")] multiline_snapshot.
Proof.
  split; [reflexivity|].
  intros H. specialize (H (lit "cert")). discriminate H.
Qed.

(** The other ways in which the line format loses a snapshot: a value with
    white space at an end, a key containing [=], a key with a line break. *)
Example round_trip_trims_values :
  reparse (serialize [(lit "k", lit " v ")]) = Ok [(lit "k", lit "v")].
Proof. reflexivity. Qed.

Example round_trip_cuts_keys :
  reparse (serialize [(lit "a=b", lit "c")]) = Ok [(lit "a", lit "b=c")].
Proof. reflexivity. Qed.

Example round_trip_breaks_at_CR :
  reparse (serialize [(lit "k", [97; CR; 98])]) = Ok [(lit "k", lit "a")].
Proof. reflexivity. Qed.

(** A value that the codec of the locale cannot encode is not written at
    all: under UTF-8 the write of a lone surrogate raises, and the session
    ends there, leaving the file it had created. *)
Example surrogate_value_cannot_be_written :
  edit_parameters_in_editor idle_editor surrogate_snapshot (lit "vim") empty_fs
  = (Raise UnicodeEncodeError, fs_write (tmp_name idle_editor) [] empty_fs).
Proof. reflexivity. Qed.

(** C3 (amended).  A snapshot whose keys and values are left unchanged by
    trimming and contain no line break, whose keys contain no [=], and each
    of whose lines the codec of the locale encodes (a codec that reads back
    what it wrote, as UTF-8 does), is written to the file without error and
    read back from it entry for entry and in the same order. *)
Theorem C3_round_trip_of_plain_snapshots (c : codec) (p : str)
  (parameters : dict) (f : fs) :
  wf parameters -> Spec.plain parameters -> faithful c ->
  (forall k v, In (k, v) parameters -> encode c (format_line k v) <> None) ->
  exists f1,
    create_and_write c p parameters f = (Ok tt, f1) /\
    reparse_file c p f1 = (Ok parameters, f1).
Proof.
  intros Hwf Hplain Hc Henc.
  exists (fs_write p (snd (write_lines c parameters [])) f).
  assert (Hw : create_and_write c p parameters f =
               (Ok tt, fs_write p (snd (write_lines c parameters [])) f)).
  { unfold create_and_write. now rewrite write_lines_encodable. }
  split; [exact Hw|].
  destruct (written_file_reads_back c p parameters f _ Hwf Hplain Hc Hw)
    as (b & Hb & Hd).
  rewrite (reparse_file_decoded c p _ b (serialize parameters) Hb Hd).
  rewrite readlines_serialize by assumption.
  unfold Spec.edited_snapshot. now rewrite fold_insert_formatted.
Qed.

Lemma C3_round_trip_of_ab :
  exists f1,
    create_and_write utf8 (lit "/tmp/tmpk3v9.txt") original_ab empty_fs
      = (Ok tt, f1) /\
    reparse_file utf8 (lit "/tmp/tmpk3v9.txt") f1 = (Ok original_ab, f1).
Proof.
  apply (C3_round_trip_of_plain_snapshots utf8 (lit "/tmp/tmpk3v9.txt")
           original_ab empty_fs).
  - unfold wf. simpl. repeat constructor; simpl; intuition discriminate.
  - intros k v Hin. simpl in Hin.
    destruct Hin as [[= <- <-]|[[= <- <-]|[]]];
      (split; [split|]; repeat split; simpl; intuition discriminate).
  - exact utf8_faithful.
  - intros k v Hin. simpl in Hin.
    destruct Hin as [[= <- <-]|[[= <- <-]|[]]]; discriminate.
Defined.


(** The file is left behind as well when what the editor saved cannot be
    decoded: the read raises before line 52 is reached. *)
Example undecodable_file_is_left_behind :
  edit_parameters_in_editor (Notions.typing_editor latin1_document) original_ab
    (lit "vim") empty_fs
  = (Raise UnicodeDecodeError,
     fs_write (lit "/tmp/tmpk3v9.txt") latin1_document
       (fs_write (lit "/tmp/tmpk3v9.txt")
          (lit "a=1" ++ [LF] ++ lit "b=2" ++ [LF]) empty_fs)).
Proof. reflexivity. Qed.



(** ** The fetcher *)

Import Fetcher.

Lemma split_scan_skip (sep : str) (m : option nat) (cur pre s : str) :
  split_scan sep m (List.length pre) cur (pre ++ s) = split_scan sep m 0 cur s.
Proof.
  induction pre as [|c pre IH]; simpl; [reflexivity | exact IH].
Qed.

Lemma split_scan_no_occurrence (sep : str) (m : option nat) (s cur : str) :
  ~ Spec.occurs sep s -> split_scan sep m 0 cur s = [rev cur ++ s].
Proof.
  revert cur. induction s as [|c s IH]; intros cur Hno; simpl.
  - now rewrite app_nil_r.
  - assert (E : startswith sep (c :: s) = false).
    { destruct (startswith sep (c :: s)) eqn:E; [|reflexivity].
      exfalso. apply Hno. now exists 0%nat. }
    rewrite E, andb_false_r, IH.
    + simpl. now rewrite <- app_assoc.
    + intros [i Hi]. apply Hno. now exists (S i).
Qed.

(** Where the prefix does not occur again in the rest of the name, the key
    is the name with the prefix removed. *)
Lemma relative_key_strips_prefix (path rel : str) :
  path <> [] -> ~ Spec.occurs path rel ->
  relative_key path (path ++ rel) = Ok rel.
Proof.
  intros Hne Hno. unfold relative_key, split.
  destruct path as [|c p]; [congruence|]. cbn [bind].
  cbn [app split_scan may_split andb].
  change (startswith (c :: p) (c :: p ++ rel))
    with (startswith (c :: p) ((c :: p) ++ rel)).
  rewrite startswith_app. cbn [List.length Nat.pred used_split rev].
  rewrite split_scan_skip, split_scan_no_occurrence by assumption.
  reflexivity.
Qed.

Lemma store_page_app (path : str) (p1 p2 : list param) (d : dict) :
  store_page path (p1 ++ p2) d =
  bind (store_page path p1 d) (fun d' => store_page path p2 d').
Proof.
  revert d. induction p1 as [|p p1 IH]; intros d; simpl; [reflexivity|].
  destruct (relative_key path (Name p)) as [k|e]; simpl; [apply IH | reflexivity].
Qed.

Lemma skipn_nth_error {A} (l : list A) (i : nat) (x : A) :
  nth_error l i = Some x -> skipn i l = x :: skipn (S i) l.
Proof.
  revert i. induction l as [|a l IH]; intros [|i] H; simpl in *;
    try discriminate.
  - now injection H as ->.
  - now apply IH.
Qed.

Lemma fetch_loop_paged (pages : list (list param)) (path : str) (fuel i : nat)
  (d : dict) :
  (i < List.length pages)%nat -> (List.length pages - i <= fuel)%nat ->
  fetch_loop fuel (paged_client pages) path d (token_of i) =
  Some (store_page path (List.concat (skipn i pages)) d).
Proof.
  revert i d. induction fuel as [|fuel IH]; intros i d Hi Hfuel; [lia|].
  destruct (nth_error pages i) as [page|] eqn:Epage;
    [|apply nth_error_None in Epage; lia].
  rewrite (skipn_nth_error _ _ _ Epage).
  remember (skipn (S i) pages) as rest eqn:Erest.
  cbn [List.concat]. rewrite store_page_app.
  assert (Ei : (match (if truthy (token_of i) then token_of i else None) with
                | Some t => List.length t
                | None => 0
                end = i)%nat).
  { destruct i as [|j]; [reflexivity|]. simpl. now rewrite repeat_length. }
  cbn [fetch_loop]. unfold paged_client at 1. cbn [NextTokenArg].
  rewrite Ei, Epage. cbn [page_of Parameters NextToken].
  destruct (store_page path page d) as [d'|e]; [|reflexivity]. cbn [bind].
  destruct (Nat.ltb_spec (S i) (List.length pages)) as [Hlt|Hge].
  - replace (truthy (Some (cursor i))) with true by reflexivity.
    change (Some (cursor i)) with (token_of (S i)).
    rewrite IH by lia. now subst rest.
  - cbn [truthy]. subst rest. rewrite skipn_all2 by lia. reflexivity.
Qed.

(** With enough requests allowed, the fetcher returns what storing all the
    entries in one sweep returns: the pages matter only through their
    concatenation. *)
Lemma fetch_paged (pages : list (list param)) (path : str) (fuel : nat) :
  (1 <= fuel)%nat -> (List.length pages <= fuel)%nat ->
  fetch_parameters_by_path fuel (paged_client pages) path =
  Some (store_page path (List.concat pages) []).
Proof.
  intros H1 Hfuel. unfold fetch_parameters_by_path.
  destruct pages as [|page pages].
  - destruct fuel as [|fuel]; [lia|]. reflexivity.
  - change (fetch_loop fuel (paged_client (page :: pages)) path [] None)
      with (fetch_loop fuel (paged_client (page :: pages)) path [] (token_of 0)).
    rewrite fetch_loop_paged; [reflexivity | simpl; lia | simpl in *; lia].
Qed.

Lemma store_entries (path : str) (d acc : dict) :
  path <> [] -> (forall k, In k (keys d) -> ~ Spec.occurs path k) ->
  wf (acc ++ d) ->
  store_page path (entries_of path d) acc = Ok (acc ++ d).
Proof.
  intros Hne. revert acc.
  induction d as [|[k v] d IH]; intros acc Hno Hwf; simpl.
  - now rewrite app_nil_r.
  - rewrite relative_key_strips_prefix; [|assumption|apply Hno; now left].
    cbn [bind].
    assert (Hfresh : ~ In k (keys acc)).
    { unfold wf, keys in Hwf. rewrite map_app in Hwf. simpl in Hwf.
      apply NoDup_remove_2 in Hwf. intros Hin. apply Hwf.
      apply in_or_app. now left. }
    rewrite set_fresh by assumption.
    unfold entries_of in IH. rewrite IH.
    + now rewrite <- app_assoc.
    + intros k' Hin. apply Hno. now right.
    + now rewrite <- app_assoc.
Qed.

(** C4 (the code departs from the claim).  [split(path)] cuts at every
    occurrence of the prefix and [[1]] keeps the piece between the first two:
    under the prefix [/a/] the name [/a/b/a/c] is stored under [b], not under
    [b/a/c], and the prefix followed by the stored key is [/a/b], another
    name.  Line 49 of the same file limits its split with [split('=', 1)];
    line 20 does not. *)
Theorem C4_relative_key_stops_at_second_prefix :
  relative_key nested_prefix (Name nested_c) = Ok (lit "b") /\
  nested_prefix ++ lit "b" <> Name nested_c /\
  fetch_parameters_by_path 1 (paged_client [[nested_c]]) nested_prefix
    = Some (Ok [(lit "b", lit "1")]).
Proof.
  split; [reflexivity|]. split; [discriminate | reflexivity].
Qed.

(** C9 (the code departs from the claim).  Two entries with different names,
    [/a/b/a/c] and [/a/b/a/d], fetched under [/a/] in one page or in two,
    give a mapping with one key, [b]: both are stored under the same cut
    key and the second overwrites the first. *)
Theorem C9_two_entries_one_key :
  fetch_parameters_by_path 1 (paged_client [[nested_c; nested_d]]) nested_prefix
    = Some (Ok [(lit "b", lit "2")]) /\
  fetch_parameters_by_path 2 (paged_client [[nested_c]; [nested_d]]) nested_prefix
    = Some (Ok [(lit "b", lit "2")]) /\
  Name nested_c <> Name nested_d.
Proof.
  split; [reflexivity|]. split; [reflexivity | discriminate].
Qed.

(** ** Further properties *)

(** Where the prefix does not occur again after the start of a name, the
    stored key is the name with the prefix removed, and the prefix followed
    by the stored key is the name. *)
Theorem relative_key_of_unrepeated_prefix (path rel : str) :
  path <> [] -> ~ Spec.occurs path rel ->
  exists k, relative_key path (path ++ rel) = Ok k /\ k = rel /\
            path ++ k = path ++ rel.
Proof.
  intros Hne Hno. exists rel.
  split; [now apply relative_key_strips_prefix | split; reflexivity].
Qed.

Lemma occurs_dec_false (sep s : str) :
  forallb (fun i => negb (startswith sep (skipn i s)))
          (List.seq 0%nat (S (List.length s))) = true ->
  sep <> [] -> ~ Spec.occurs sep s.
Proof.
  intros Hall Hne [i Hi].
  rewrite forallb_forall in Hall.
  destruct (Nat.le_gt_cases i (List.length s)) as [Hle|Hgt].
  - specialize (Hall i). rewrite Hi in Hall.
    assert (Hin : In i (List.seq 0%nat (S (List.length s)))) by (apply in_seq; lia).
    specialize (Hall Hin). discriminate.
  - rewrite skipn_all2 in Hi by lia.
    destruct sep; [congruence | discriminate].
Qed.

Lemma relative_key_of_flat_name :
  exists k, relative_key nested_prefix (lit "/a/x") = Ok k /\ k = lit "x" /\
            nested_prefix ++ k = lit "/a/x".
Proof.
  apply (relative_key_of_unrepeated_prefix nested_prefix (lit "x")).
  - discriminate.
  - apply occurs_dec_false; [reflexivity | discriminate].
Defined.

(** Pagination alone loses nothing: for a snapshot in whose keys the prefix
    does not occur, with one entry per key, the fetcher returns the snapshot
    itself, with as many keys as there are entries, however the entries are
    cut into pages. *)
Theorem fetch_is_complete_for_any_paging (path : str) (d : dict)
  (pages : list (list param)) (fuel : nat) :
  path <> [] -> (forall k, In k (keys d) -> ~ Spec.occurs path k) -> wf d ->
  List.concat pages = entries_of path d ->
  (1 <= fuel)%nat -> (List.length pages <= fuel)%nat ->
  fetch_parameters_by_path fuel (paged_client pages) path = Some (Ok d) /\
  List.length (keys d) = List.length (List.concat pages).
Proof.
  intros Hne Hno Hwf Hpages H1 Hfuel. split.
  - rewrite fetch_paged, Hpages by assumption.
    now rewrite store_entries.
  - rewrite Hpages. unfold keys, entries_of. now rewrite !length_map.
Qed.

Lemma fetch_two_pages_two_keys :
  fetch_parameters_by_path 3 (paged_client [[flat_x]; []; [flat_y]]) nested_prefix
    = Some (Ok [(lit "x", lit "1"); (lit "y", lit "2")]) /\
  List.length (keys [(lit "x", lit "1"); (lit "y", lit "2")])
    = List.length (List.concat [[flat_x]; []; [flat_y]]).
Proof.
  apply (fetch_is_complete_for_any_paging nested_prefix
           [(lit "x", lit "1"); (lit "y", lit "2")]
           [[flat_x]; []; [flat_y]] 3).
  - discriminate.
  - intros k Hin. simpl in Hin.
    destruct Hin as [<-|[<-|[]]];
      (apply occurs_dec_false; [reflexivity | discriminate]).
  - unfold wf. simpl. repeat constructor; simpl; intuition discriminate.
  - reflexivity.
  - lia.
  - simpl. lia.
Defined.

Lemma commit_loop_change_set (service : Type)
  (put_parameter : service -> put_request -> service * result unit)
  (path : str) (params items : dict) (st : state service) :
  (forall k, In k (keys items) -> get params k <> None) ->
  map Spec.triple_of
      (changes (snd (commit_loop service put_parameter path params items st))) =
  map Spec.triple_of (changes st) ++ Spec.change_set params items.
Proof.
  unfold Spec.change_set.
  revert st. induction items as [|[k v] items IH]; intros st Hk.
  - simpl. now rewrite app_nil_r.
  - assert (Hk' : forall k', In k' (keys items) -> get params k' <> None)
      by (intros k' Hin; apply Hk; now right).
    simpl. unfold visit, try_put, lookup, differs, Spec.is_change. simpl.
    destruct (get params k) as [old|] eqn:Eg;
      [|exfalso; apply (Hk k); [now left | assumption]].
    destruct (str_eqb old v); simpl; [now apply IH|].
    destruct (put_parameter _ _) as [s' o].
    rewrite IH by assumption. simpl.
    rewrite map_app, Eg. simpl. now rewrite <- app_assoc.
Qed.

(** When every key of the edited snapshot exists in the original one, the
    rows of [changes] are the ChangeSet of the specification: the changed
    keys in the order of the edit, each with its old and its new value. *)
Theorem changes_are_the_change_set (service : Type)
  (put_parameter : service -> put_request -> service * result unit)
  (s0 : service) (path : str) (params updated_params : dict) :
  (forall k, In k (keys updated_params) -> get params k <> None) ->
  fst (commit service put_parameter s0 path params updated_params) = Ok tt /\
  map Spec.triple_of
      (changes (snd (commit service put_parameter s0 path params updated_params)))
  = Spec.change_set params updated_params.
Proof.
  intros Hk.
  destruct (commit_state service put_parameter path params s0 updated_params)
    as (Hc & _).
  rewrite commit_fst, Hc. split.
  - now apply commit_loop_known_keys.
  - now rewrite commit_loop_change_set.
Qed.

Lemma changes_of_three_edits :
  fst (commit store (store_put accepts_all) [] prefix original_abc edited_all)
    = Ok tt /\
  map Spec.triple_of
      (changes (snd (commit store (store_put accepts_all) [] prefix
                       original_abc edited_all)))
  = [(lit "a", Some (lit "1"), lit "10");
     (lit "b", Some (lit "2"), lit "20");
     (lit "c", Some (lit "3"), lit "30")].
Proof.
  apply (changes_are_the_change_set store (store_put accepts_all) [] prefix
           original_abc edited_all).
  intros k Hin. simpl in Hin.
  destruct Hin as [<-|[<-|[<-|[]]]]; discriminate.
Defined.

(** * The rest of the code *)

Import Notions.

(** ** More on trimming *)

Lemma lstrip_blank (w s : str) : blank w -> lstrip (w ++ s) = lstrip s.
Proof.
  unfold blank. induction w as [|c w IH]; simpl; [reflexivity|].
  intros H. apply andb_true_iff in H as [Hc Hw]. rewrite Hc. auto.
Qed.

Lemma lstrip_idem (s : str) : lstrip (lstrip s) = lstrip s.
Proof.
  induction s as [|c s IH]; simpl; [reflexivity|].
  destruct (isspace c) eqn:E; [assumption|]. simpl. now rewrite E.
Qed.

Lemma lstrip_suffix (s : str) : exists w, blank w /\ s = w ++ lstrip s.
Proof.
  induction s as [|c s (w & Hw & IH)]; simpl.
  - now exists [].
  - destruct (isspace c) eqn:E.
    + exists (c :: w). split.
      * unfold blank. simpl. now rewrite E.
      * simpl. now rewrite <- IH.
    + now exists [].
Qed.

Lemma In_lstrip (c : char) (s : str) : In c (lstrip s) -> In c s.
Proof.
  destruct (lstrip_suffix s) as (w & _ & E). intros H.
  rewrite E. apply in_or_app. now right.
Qed.

Lemma In_rstrip (c : char) (s : str) : In c (rstrip s) -> In c s.
Proof.
  unfold rstrip. intros H.
  apply in_rev in H. apply In_lstrip in H. now apply in_rev.
Qed.

Lemma In_strip (c : char) (s : str) : In c (strip s) -> In c s.
Proof. unfold strip. intros H. now apply In_lstrip, In_rstrip. Qed.

Lemma rstrip_blank (s w : str) : blank w -> rstrip (s ++ w) = rstrip s.
Proof.
  intros H. unfold rstrip. rewrite rev_app_distr, lstrip_blank; [reflexivity|].
  unfold blank in *. rewrite forallb_forall in *.
  intros c Hc. apply H. now apply in_rev.
Qed.

Lemma rstrip_cons_nonspace (c : char) (s : str) :
  isspace c = false -> rstrip (c :: s) = c :: rstrip s.
Proof.
  intros Hc. unfold rstrip. simpl.
  assert (H : forall a, lstrip (a ++ [c]) = lstrip a ++ [c]).
  { induction a as [|x a IH]; simpl; [now rewrite Hc|].
    destruct (isspace x); [exact IH | reflexivity]. }
  rewrite H, rev_app_distr. reflexivity.
Qed.

(** A trimmed text between two runs of white space is what trimming finds. *)
Lemma strip_unique (w1 t w2 : str) :
  blank w1 -> blank w2 -> strip t = t -> strip (w1 ++ t ++ w2) = t.
Proof.
  intros H1 H2 Ht. apply strip_fixed in Ht as [Hl Hr].
  unfold strip. rewrite lstrip_blank by assumption.
  destruct (lstrip_fixed t Hl) as [-> | (c & t' & -> & Hc)].
  - simpl. replace (lstrip w2) with (@nil char); [reflexivity|].
    rewrite <- (app_nil_r w2), lstrip_blank by assumption. reflexivity.
  - simpl. rewrite Hc.
    change (c :: t' ++ w2) with ((c :: t') ++ w2).
    now rewrite rstrip_blank.
Qed.

Lemma strip_idem (s : str) : strip (strip s) = strip s.
Proof.
  change (strip (rstrip (lstrip s)) = rstrip (lstrip s)).
  pose proof (lstrip_idem s) as Hl.
  destruct (lstrip_fixed _ Hl) as [E | (c & t & E & Hc)]; rewrite E.
  - reflexivity.
  - rewrite rstrip_cons_nonspace by assumption.
    unfold strip. simpl. rewrite Hc.
    rewrite rstrip_cons_nonspace by assumption. f_equal.
    unfold rstrip. rewrite rev_involutive, lstrip_idem. reflexivity.
Qed.

Lemma strip_blank (w : str) : blank w -> strip w = [].
Proof.
  intros H. pose proof (strip_unique w [] [] H eq_refl eq_refl) as E.
  simpl in E. now rewrite app_nil_r in E.
Qed.

Lemma lstrip_app_nonspace_any (a b : str) (c : char) :
  isspace c = false -> lstrip (a ++ c :: b) = lstrip a ++ c :: b.
Proof.
  intros Hc. induction a as [|x a IH]; simpl; [now rewrite Hc|].
  destruct (isspace x); [exact IH | reflexivity].
Qed.

Lemma rstrip_nonspace_app_any (a b : str) (c : char) :
  isspace c = false -> rstrip (a ++ c :: b) = a ++ c :: rstrip b.
Proof.
  intros Hc. unfold rstrip.
  replace (rev (a ++ c :: b)) with (rev b ++ c :: rev a)
    by (rewrite rev_app_distr; simpl; now rewrite <- app_assoc).
  rewrite lstrip_app_nonspace_any by assumption.
  rewrite rev_app_distr. simpl. rewrite rev_involutive.
  now rewrite <- app_assoc.
Qed.

Lemma blank_no_EQ (w : str) : blank w -> ~ In EQ w.
Proof.
  unfold blank. rewrite forallb_forall. intros H Hin.
  specialize (H _ Hin). discriminate.
Qed.

Lemma strip_lstrip (s : str) : strip (lstrip s) = strip s.
Proof. unfold strip. now rewrite lstrip_idem. Qed.

Lemma blank_rstrip (w : str) : blank w -> blank (rstrip w).
Proof.
  unfold blank. rewrite !forallb_forall. intros H c Hc.
  apply H. now apply In_rstrip.
Qed.

Lemma rstrip_app_fixed (a t : str) :
  rstrip t = t -> t <> [] -> rstrip (a ++ t) = a ++ t.
Proof.
  intros Ht Hne. apply rstrip_fixed_rev in Ht.
  destruct (lstrip_fixed _ Ht) as [E | (c & r & E & Hc)].
  - exfalso. apply Hne. rewrite <- (rev_involutive t), E. reflexivity.
  - unfold rstrip. rewrite rev_app_distr, E. simpl. rewrite Hc.
    change (c :: r ++ rev a) with ((c :: r) ++ rev a).
    now rewrite <- E, <- rev_app_distr, rev_involutive.
Qed.

Lemma strip_rstrip_pad (w3 v w4 : str) :
  blank w3 -> blank w4 -> strip v = v -> strip (rstrip (w3 ++ v ++ w4)) = v.
Proof.
  intros H3 H4 Hv.
  rewrite app_assoc, rstrip_blank by assumption.
  destruct v as [|c v'].
  - rewrite app_nil_r. apply strip_blank. now apply blank_rstrip.
  - rewrite rstrip_app_fixed.
    + rewrite <- (app_nil_r (c :: v')) at 1.
      now apply strip_unique.
    + now apply strip_fixed in Hv.
    + discriminate.
Qed.

(** White space around the key and around the value is not significant. *)
Theorem parse_line_ignores_padding (d : dict) (w1 k w2 w3 v w4 : str) :
  blank w1 -> blank w2 -> blank w3 -> blank w4 ->
  strip k = k -> ~ In EQ k -> strip v = v ->
  parse_line d (w1 ++ k ++ w2 ++ [EQ] ++ w3 ++ v ++ w4) = Ok (set k v d).
Proof.
  intros H1 H2 H3 H4 Hk Hnk Hv.
  rewrite parse_line_insert_entry.
  unfold Spec.insert_entry, Spec.entry_of_line.
  assert (Es : strip (w1 ++ k ++ w2 ++ [EQ] ++ w3 ++ v ++ w4) =
               lstrip (w1 ++ k ++ w2) ++ EQ :: rstrip (w3 ++ v ++ w4)).
  { unfold strip.
    replace (w1 ++ k ++ w2 ++ [EQ] ++ w3 ++ v ++ w4)
      with ((w1 ++ k ++ w2) ++ EQ :: (w3 ++ v ++ w4))
      by (now rewrite <- !app_assoc).
    rewrite lstrip_app_nonspace_any by reflexivity.
    now rewrite rstrip_nonspace_app_any by reflexivity. }
  rewrite Es.
  assert (Ec : Spec.cut_first EQ
                 (lstrip (w1 ++ k ++ w2) ++ EQ :: rstrip (w3 ++ v ++ w4)) =
               Some (lstrip (w1 ++ k ++ w2), rstrip (w3 ++ v ++ w4))).
  { apply cut_first_Some. split; [reflexivity|].
    intros Hin. apply In_lstrip in Hin.
    apply in_app_or in Hin as [Hin|Hin]; [now apply blank_no_EQ in Hin|].
    apply in_app_or in Hin as [Hin|Hin]; [auto | now apply blank_no_EQ in Hin]. }
  rewrite Ec, strip_lstrip, strip_unique, strip_rstrip_pad by assumption.
  now destruct (lstrip (w1 ++ k ++ w2)).
Qed.

Lemma parse_line_of_padded_pair :
  parse_line [] (lit "  name =  value " ++ [LF]) = Ok [(lit "name", lit "value")].
Proof.
  exact (parse_line_ignores_padding [] (lit "  ") (lit "name") (lit " ")
           (lit "  ") (lit "value") (lit " " ++ [LF])
           eq_refl eq_refl eq_refl eq_refl eq_refl
           ltac:(simpl; intuition discriminate) eq_refl).
Defined.

(** ** What reparsing returns *)

Lemma universal_newlines_bounded (n : nat) (s : str) :
  (List.length s <= n)%nat -> ~ In CR (universal_newlines s).
Proof.
  revert s. induction n as [|n IH]; intros [|c s] Hlen; simpl in *;
    try tauto; try lia.
  destruct (N.eqb_spec c CR) as [->|Hne].
  - intros [H|H]; [discriminate|].
    destruct s as [|d s']; [contradiction|].
    destruct (d =? LF); revert H; apply IH; simpl in *; lia.
  - intros [H|H]; [congruence|]. revert H. apply IH. lia.
Qed.

Lemma universal_newlines_has_no_CR (s : str) : ~ In CR (universal_newlines s).
Proof. apply (universal_newlines_bounded (List.length s)). lia. Qed.

Lemma lines_from_shape (s cur l : str) :
  In l (lines_from cur s) -> ~ In LF cur ->
  exists body, ~ In LF body /\ (l = body \/ l = body ++ [LF]) /\
               forall c, In c body -> In c cur \/ In c s.
Proof.
  revert cur. induction s as [|c s IH]; intros cur Hin Hcur; simpl in Hin.
  - destruct cur as [|x cur']; [contradiction|].
    destruct Hin as [<-|[]]. exists (rev (x :: cur')).
    split; [now rewrite <- in_rev|]. split; [now left|].
    intros c Hc. left. now apply in_rev.
  - destruct (N.eqb_spec c LF) as [->|Hne].
    + destruct Hin as [<-|Hin].
      * exists (rev cur). split; [now rewrite <- in_rev|].
        split; [right; reflexivity|].
        intros c Hc. left. now apply in_rev.
      * destruct (IH [] Hin (fun H => H)) as (body & Hb & Hl & Hc).
        exists body. repeat split; auto.
        intros x Hx. destruct (Hc x Hx) as [[]|H]. right. now right.
    + destruct (IH (c :: cur) Hin) as (body & Hb & Hl & Hc).
      * intros [H|H]; [congruence | auto].
      * exists body. repeat split; auto.
        intros x Hx. destruct (Hc x Hx) as [[<-|H]|H]; auto.
        -- right. now left.
        -- right. now right.
Qed.

Lemma lstrip_app_cases (a b : str) :
  lstrip (a ++ b) = lstrip a ++ b \/ (lstrip a = [] /\ lstrip (a ++ b) = lstrip b).
Proof.
  induction a as [|c a IH]; simpl; [now right|].
  destruct (isspace c); [exact IH | now left].
Qed.

Lemma strip_app_blank (s w : str) : blank w -> strip (s ++ w) = strip s.
Proof.
  intros Hw. unfold strip.
  destruct (lstrip_app_cases s w) as [E | [E1 E2]].
  - now rewrite E, rstrip_blank.
  - rewrite E2, E1.
    replace (lstrip w) with (@nil char); [reflexivity|].
    rewrite <- (app_nil_r w), lstrip_blank by assumption. reflexivity.
Qed.

(** A line read from a file has, once trimmed, no line break left. *)
Lemma read_line_trimmed (content l : str) (c : char) :
  In l (readlines content) -> In c (strip l) -> c <> LF /\ c <> CR.
Proof.
  unfold readlines. intros Hl Hc.
  destruct (lines_from_shape _ [] l Hl (fun H => H)) as (body & Hb & Hshape & Hfrom).
  assert (Hc' : In c body).
  { destruct Hshape as [->| ->].
    - now apply In_strip.
    - rewrite strip_app_blank in Hc by reflexivity. now apply In_strip. }
  split; intros ->; [auto|].
  destruct (Hfrom _ Hc') as [[]|H].
  now apply universal_newlines_has_no_CR in H.
Qed.

Lemma entry_is_plain (l k v : str) :
  (forall c, In c (strip l) -> c <> LF /\ c <> CR) ->
  Spec.entry_of_line l = Some (k, v) ->
  Spec.plain_key k /\ Spec.plain_value v.
Proof.
  intros Hl. unfold Spec.entry_of_line.
  destruct (strip l) as [|x t] eqn:Et; [discriminate|].
  destruct (Spec.cut_first EQ (x :: t)) as [[key value]|] eqn:Ec; [|discriminate].
  intros [= <- <-]. apply cut_first_Some in Ec as [Ec Hkey].
  assert (Hin : forall c, In c key \/ In c value -> c <> LF /\ c <> CR).
  { intros c Hc. apply Hl. rewrite Ec. apply in_or_app.
    destruct Hc; [now left | right; now right]. }
  unfold Spec.plain_key, Spec.plain_value.
  repeat split; try apply strip_idem;
    intros H; apply In_strip in H; try (now apply Hkey);
    match goal with
    | H : In ?c _ |- _ =>
      destruct (Hin c) as [? ?]; [auto | congruence]
    end.
Qed.

Lemma In_set (k v k0 v0 : str) (d : dict) :
  In (k, v) (set k0 v0 d) -> (k, v) = (k0, v0) \/ In (k, v) d.
Proof.
  induction d as [|[k' v'] d IH]; simpl.
  - intros [H|[]]. now left.
  - destruct (str_eqb k' k0) eqn:E; simpl.
    + apply str_eqb_eq in E; subst k'.
      intros [H|H]; [now left | right; now right].
    + intros [H|H]; [right; now left|].
      destruct (IH H); [now left | right; now right].
Qed.

Lemma plain_fold_insert_entry (ls : list str) (d : dict) :
  (forall l c, In l ls -> In c (strip l) -> c <> LF /\ c <> CR) ->
  Spec.plain d -> Spec.plain (fold_left Spec.insert_entry ls d).
Proof.
  revert d. induction ls as [|l ls IH]; intros d Hls Hd; simpl; [assumption|].
  apply IH; [intros l' c Hl'; apply Hls; now right|].
  unfold Spec.insert_entry.
  destruct (Spec.entry_of_line l) as [[k v]|] eqn:E; [|assumption].
  apply entry_is_plain in E; [|intros c; apply Hls; now left].
  intros k' v' Hin. apply In_set in Hin as [[= -> ->]|Hin]; auto.
Qed.

(** Whatever the file holds, the snapshot read from it has unique keys and
    is carried unchanged by the line format: writing it out and reading it
    again gives it back. *)
Theorem reparse_returns_a_plain_snapshot (content : str) (d : dict) :
  reparse content = Ok d ->
  wf d /\ Spec.plain d /\ reparse (serialize d) = Ok d.
Proof.
  rewrite reparse_edited_snapshot. intros [= <-].
  assert (Hwf : wf (Spec.edited_snapshot (readlines content)))
    by (apply wf_fold_insert_entry; constructor).
  assert (Hplain : Spec.plain (Spec.edited_snapshot (readlines content))).
  { apply plain_fold_insert_entry; [|intros k v []].
    intros l c. apply read_line_trimmed. }
  split; [exact Hwf|]. split; [exact Hplain|].
  rewrite reparse_edited_snapshot, readlines_serialize by assumption.
  unfold Spec.edited_snapshot at 1. now rewrite fold_insert_formatted.
Qed.

Lemma reparse_of_permissive_document_is_plain :
  wf [(lit "x", lit "y=z")] /\ Spec.plain [(lit "x", lit "y=z")] /\
  reparse (serialize [(lit "x", lit "y=z")]) = Ok [(lit "x", lit "y=z")].
Proof.
  exact (reparse_returns_a_plain_snapshot permissive_document
           [(lit "x", lit "y=z")] eq_refl).
Defined.

(** ** Line endings *)

Lemma universal_newlines_to_crlf (s : str) :
  ~ In CR s -> universal_newlines (to_crlf s) = s.
Proof.
  induction s as [|c s IH]; intros H; [reflexivity|].
  assert (Hs : ~ In CR s) by (intros H'; apply H; now right).
  unfold to_crlf. cbn [flat_map]. fold (to_crlf s).
  destruct (N.eqb_spec c LF) as [->|Hne].
  - simpl. now rewrite IH.
  - cbn [app universal_newlines].
    destruct (N.eqb_spec c CR) as [->|_]; [exfalso; apply H; now left|].
    now rewrite IH.
Qed.

Lemma to_cr_has_no_LF (s : str) : ~ In LF (to_cr s).
Proof.
  unfold to_cr. intros H. apply in_map_iff in H as (c & Hc & _).
  destruct (N.eqb_spec c LF); [discriminate | congruence].
Qed.

Lemma universal_newlines_CR (rest : str) :
  ~ In LF rest ->
  universal_newlines (CR :: rest) = LF :: universal_newlines rest.
Proof.
  intros H. cbn [universal_newlines]. rewrite N.eqb_refl.
  destruct rest as [|d rest']; [reflexivity|].
  destruct (N.eqb_spec d LF) as [->|_]; [exfalso; apply H; now left|].
  reflexivity.
Qed.

Lemma universal_newlines_to_cr (s : str) :
  ~ In CR s -> universal_newlines (to_cr s) = s.
Proof.
  induction s as [|c s IH]; intros H; [reflexivity|].
  assert (Hs : ~ In CR s) by (intros H'; apply H; now right).
  unfold to_cr. cbn [map]. fold (to_cr s).
  destruct (N.eqb_spec c LF) as [->|Hne].
  - rewrite universal_newlines_CR by apply to_cr_has_no_LF. now rewrite IH.
  - cbn [universal_newlines].
    destruct (N.eqb_spec c CR) as [->|_]; [exfalso; apply H; now left|].
    now rewrite IH.
Qed.

(** A document saved with CR LF line ends, or with lone CR line ends, is
    read as the same document saved with LF line ends. *)
Theorem line_ends_do_not_matter (content : str) :
  ~ In CR content ->
  readlines (to_crlf content) = readlines content /\
  readlines (to_cr content) = readlines content /\
  reparse (to_crlf content) = reparse content /\
  reparse (to_cr content) = reparse content.
Proof.
  intros H. unfold reparse, readlines.
  rewrite universal_newlines_to_crlf, universal_newlines_to_cr,
    universal_newlines_no_CR by assumption.
  repeat split.
Qed.

Lemma crlf_document_is_read_alike :
  readlines (to_crlf permissive_document) = readlines permissive_document /\
  readlines (to_cr permissive_document) = readlines permissive_document /\
  reparse (to_crlf permissive_document) = reparse permissive_document /\
  reparse (to_cr permissive_document) = reparse permissive_document.
Proof.
  apply line_ends_do_not_matter.
  unfold permissive_document. simpl. intuition discriminate.
Defined.

(** ** The session as a whole *)

Lemma reparse_serialize_plain (parameters : dict) :
  wf parameters -> Spec.plain parameters ->
  reparse (serialize parameters) = Ok parameters.
Proof.
  intros Hwf Hplain.
  rewrite reparse_edited_snapshot, readlines_serialize by assumption.
  unfold Spec.edited_snapshot. now rewrite fold_insert_formatted.
Qed.

Lemma edit_unedited (e : env) (parameters : dict) (editor : str)
  (f f1 f2 : fs) :
  wf parameters -> Spec.plain parameters -> faithful (locale e) ->
  create_and_write (locale e) (tmp_name e) parameters f = (Ok tt, f1) ->
  invoke_editor e editor (tmp_name e) f1 = (Ok tt, f2) ->
  f2 (tmp_name e) = f1 (tmp_name e) ->
  edit_parameters_in_editor e parameters editor f =
    (Ok parameters, fs_unlink (tmp_name e) f2).
Proof.
  intros Hwf Hplain Hc Hw Hinv Hfile.
  destruct (written_file_reads_back _ _ _ _ _ Hwf Hplain Hc Hw)
    as (b & Hb & Hd).
  rewrite <- Hfile in Hb.
  pose proof (reparse_file_decoded _ _ _ b (serialize parameters) Hb Hd) as Hr.
  assert (Hx : Spec.edited_snapshot (readlines (serialize parameters)) = parameters).
  { pose proof (reparse_serialize_plain parameters Hwf Hplain) as H.
    rewrite reparse_edited_snapshot in H. now apply (f_equal
      (fun r => match r with Ok d => d | Raise _ => parameters end)) in H. }
  rewrite Hx in Hr.
  unfold edit_parameters_in_editor, seq.
  rewrite Hw, Hinv, Hr.
  unfold unlink. now rewrite Hb.
Qed.

(** When the snapshot is one the line format carries, its lines have been
    written (by a codec that reads back what it wrote), and the editor
    returns with the temporary file as it was written, the session returns
    the snapshot itself; of the files, it has removed the temporary one and
    changed no other. *)
Theorem session_returns_the_snapshot_when_unedited (e : env)
  (parameters : dict) (editor : str) (f f1 f2 : fs) :
  wf parameters -> Spec.plain parameters -> faithful (locale e) ->
  create_and_write (locale e) (tmp_name e) parameters f = (Ok tt, f1) ->
  invoke_editor e editor (tmp_name e) f1 = (Ok tt, f2) ->
  f2 (tmp_name e) = f1 (tmp_name e) ->
  edit_parameters_in_editor e parameters editor f =
    (Ok parameters, fs_unlink (tmp_name e) f2) /\
  fs_unlink (tmp_name e) f2 (tmp_name e) = None /\
  forall p, p <> tmp_name e -> fs_unlink (tmp_name e) f2 p = f2 p.
Proof.
  intros Hwf Hplain Hc Hw Hinv Hfile. split; [|split].
  - now apply edit_unedited with f1.
  - unfold fs_unlink. now rewrite str_eqb_refl.
  - intros p Hp. unfold fs_unlink.
    apply str_eqb_neq in Hp. now rewrite Hp.
Qed.

Lemma plain_original_ab : wf original_ab /\ Spec.plain original_ab.
Proof.
  split.
  - unfold wf. simpl. repeat constructor; simpl; intuition discriminate.
  - intros k v Hin. simpl in Hin.
    destruct Hin as [[= <- <-]|[[= <- <-]|[]]];
      (split; [split|]; repeat split; simpl; intuition discriminate).
Defined.

Lemma idle_session_returns_ab :
  edit_parameters_in_editor idle_editor original_ab (lit "vim") empty_fs =
    (Ok original_ab,
     fs_unlink (tmp_name idle_editor)
       (fs_write (tmp_name idle_editor)
          (snd (write_lines utf8 original_ab [])) empty_fs)) /\
  fs_unlink (tmp_name idle_editor)
    (fs_write (tmp_name idle_editor)
       (snd (write_lines utf8 original_ab [])) empty_fs)
    (tmp_name idle_editor) = None /\
  forall p, p <> tmp_name idle_editor ->
    fs_unlink (tmp_name idle_editor)
      (fs_write (tmp_name idle_editor)
         (snd (write_lines utf8 original_ab [])) empty_fs) p
    = fs_write (tmp_name idle_editor)
        (snd (write_lines utf8 original_ab [])) empty_fs p.
Proof.
  exact (session_returns_the_snapshot_when_unedited idle_editor original_ab
           (lit "vim") empty_fs
           (fs_write (tmp_name idle_editor)
              (snd (write_lines utf8 original_ab [])) empty_fs)
           (fs_write (tmp_name idle_editor)
              (snd (write_lines utf8 original_ab [])) empty_fs)
           (proj1 plain_original_ab) (proj2 plain_original_ab)
           utf8_faithful eq_refl eq_refl eq_refl).
Defined.

(** ** More on the fetcher *)

Lemma split_scan_not_nil (sep : str) (m : option nat) (skip : nat) (cur s : str) :
  split_scan sep m skip cur s <> [].
Proof.
  revert m skip cur. induction s as [|c s IH]; intros m skip cur; simpl;
    [discriminate|].
  destruct skip; [|apply IH].
  destruct (may_split m && startswith sep (c :: s)); [discriminate | apply IH].
Qed.

Lemma split_scan_two_pieces (sep s cur : str) :
  sep <> [] -> Spec.occurs sep s ->
  exists a b rest, split_scan sep None 0 cur s = a :: b :: rest.
Proof.
  intros Hne. revert cur. induction s as [|c s IH]; intros cur [i Hi].
  - rewrite skipn_nil in Hi. destruct sep; [congruence | discriminate].
  - simpl. destruct (startswith sep (c :: s)) eqn:E; simpl.
    + destruct (split_scan sep None (Nat.pred (List.length sep)) [] s)
        as [|b rest] eqn:Er; [now apply split_scan_not_nil in Er|].
      now exists (rev cur), b, rest.
    + apply IH. destruct i as [|i]; [simpl in Hi; congruence|].
      now exists i.
Qed.

Lemma relative_key_Ok_or_IndexError (path name : str) :
  path <> [] ->
  (Spec.occurs path name /\ exists k, relative_key path name = Ok k) \/
  (~ Spec.occurs path name /\ relative_key path name = Raise IndexError).
Proof.
  intros Hne. unfold relative_key, split.
  destruct path as [|c p] eqn:Ep; [congruence|]. rewrite <- Ep in *. cbn [bind].
  destruct (split_scan path None 0 [] name) as [|a [|b rest]] eqn:Es.
  - now apply split_scan_not_nil in Es.
  - right. split; [|reflexivity].
    intros Hocc.
    destruct (split_scan_two_pieces path name [] Hne Hocc) as (a' & b' & r & E).
    congruence.
  - left. split; [|now exists b].
    destruct (startswith path name) eqn:E0; [now exists 0%nat|].
    (* no piece is cut unless the separator is met *)
    assert (H : forall s cur, (forall i, startswith path (skipn i s) = false) ->
                              split_scan path None 0 cur s = [rev cur ++ s]).
    { intros s cur Hno. apply split_scan_no_occurrence. intros [i Hi].
      now rewrite Hno in Hi. }
    assert (Hex : ~ forall i, startswith path (skipn i name) = false).
    { intros Hno. rewrite (H name [] Hno) in Es. discriminate. }
    assert (Hdec : forall n, (forall i, (i < n)%nat ->
                                startswith path (skipn i name) = false) \/
                             exists i, startswith path (skipn i name) = true).
    { induction n as [|n [IHn|IHn]]; [left; intros; lia | | now right].
      destruct (startswith path (skipn n name)) eqn:En; [right; now exists n|].
      left. intros i Hi. destruct (Nat.eq_dec i n) as [->|]; [assumption|].
      apply IHn. lia. }
    destruct (Hdec (S (List.length name))) as [Hno|Hyes]; [|exact Hyes].
    exfalso. apply Hex. intros i.
    destruct (Nat.le_gt_cases i (List.length name)) as [Hle|Hgt];
      [apply Hno; lia|].
    rewrite skipn_all2 by lia. now rewrite Ep.
Qed.

(** The three ways [param['Name'].split(path)[1]] ends: an empty path is
    refused by [split]; a name in which the path does not occur has no second
    piece; any other name gives a key. *)
Theorem relative_key_errors (path name : str) :
  (path = [] -> relative_key path name = Raise ValueError) /\
  (path <> [] -> ~ Spec.occurs path name ->
   relative_key path name = Raise IndexError) /\
  (path <> [] -> Spec.occurs path name ->
   exists k, relative_key path name = Ok k).
Proof.
  split; [intros ->; reflexivity|].
  split; intros Hne Hocc;
    destruct (relative_key_Ok_or_IndexError path name Hne) as [[H1 H2]|[H1 H2]];
    tauto.
Qed.

Lemma relative_key_of_foreign_name :
  relative_key (lit "/a/") (lit "/b/x") = Raise IndexError.
Proof.
  apply (relative_key_errors (lit "/a/") (lit "/b/x")).
  - discriminate.
  - apply occurs_dec_false; [reflexivity | discriminate].
Defined.

Lemma store_page_foreign (path : str) (page : list param) (d : dict) (p : param) :
  path <> [] -> In p page -> ~ Spec.occurs path (Name p) ->
  store_page path page d = Raise IndexError.
Proof.
  intros Hne. revert d. induction page as [|q page IH]; intros d Hin Hno;
    [contradiction|].
  simpl.
  destruct (relative_key_Ok_or_IndexError path (Name q) Hne)
    as [[Hq [k Hk]]|[Hq Hk]]; rewrite Hk; [|reflexivity].
  cbn [bind]. destruct Hin as [->|Hin]; [contradiction|].
  now apply IH.
Qed.

Lemma store_page_empty_path (page : list param) (d : dict) :
  page <> [] -> store_page [] page d = Raise ValueError.
Proof. destruct page; [congruence | reflexivity]. Qed.

(** One returned name in which the path does not occur makes the whole
    fetch fail with [IndexError], and with an empty path any returned entry
    makes it fail with [ValueError]: no partial snapshot is returned. *)
Theorem fetch_fails_as_a_whole (path : str) (pages : list (list param))
  (fuel : nat) :
  (1 <= fuel)%nat -> (List.length pages <= fuel)%nat ->
  (path <> [] ->
   (exists p, In p (List.concat pages) /\ ~ Spec.occurs path (Name p)) ->
   fetch_parameters_by_path fuel (paged_client pages) path
     = Some (Raise IndexError)) /\
  (path = [] -> List.concat pages <> [] ->
   fetch_parameters_by_path fuel (paged_client pages) path
     = Some (Raise ValueError)).
Proof.
  intros H1 Hfuel. rewrite fetch_paged by assumption. split.
  - intros Hne (p & Hin & Hno). f_equal. now apply store_page_foreign with p.
  - intros -> Hpages. f_equal. now apply store_page_empty_path.
Qed.

Lemma fetch_with_a_foreign_name_fails :
  fetch_parameters_by_path 2
    (paged_client [[flat_x]; [{| Name := lit "/b/x"; Value := lit "9" |}]])
    nested_prefix
  = Some (Raise IndexError).
Proof.
  apply (fetch_fails_as_a_whole nested_prefix
           [[flat_x]; [{| Name := lit "/b/x"; Value := lit "9" |}]] 2);
    [lia | simpl; lia | discriminate |].
  exists {| Name := lit "/b/x"; Value := lit "9" |}. split.
  - simpl. right. left. reflexivity.
  - apply occurs_dec_false; [reflexivity | discriminate].
Defined.

Lemma length_set (k v : str) (d : dict) :
  (List.length (set k v d) <= S (List.length d))%nat.
Proof.
  induction d as [|[k' v'] d IH]; simpl; [lia|].
  destruct (str_eqb k' k); simpl; lia.
Qed.

Lemma store_page_result (path : str) (entries : list param) (d d' : dict) :
  store_page path entries d = Ok d' ->
  (wf d -> wf d') /\
  (forall k, get d' k = latest path k entries (get d k)) /\
  (List.length d' <= List.length d + List.length entries)%nat.
Proof.
  revert d. induction entries as [|p entries IH]; intros d; simpl.
  - intros [= <-]. repeat split; auto. lia.
  - unfold latest. simpl. fold (latest path).
    destruct (relative_key path (Name p)) as [k0|e]; [|discriminate].
    cbn [bind]. intros H. destruct (IH _ H) as (Hwf & Hget & Hlen).
    split; [intros Hd; apply Hwf; now apply wf_set|].
    split.
    + intros k. rewrite Hget. unfold latest. f_equal.
      destruct (str_eqb k0 k) eqn:E.
      * apply str_eqb_eq in E; subst. apply get_set_same.
      * apply str_eqb_neq in E. apply get_set_other. congruence.
    + pose proof (length_set k0 (Value p) d). lia.
Qed.

Lemma fetch_loop_wf (fuel : nat) (ssm : client) (path : str) (d d' : dict)
  (token : option str) :
  wf d -> fetch_loop fuel ssm path d token = Some (Ok d') -> wf d'.
Proof.
  revert d token. induction fuel as [|fuel IH]; intros d token Hwf; simpl;
    [discriminate|].
  destruct (ssm _) as [response|e]; [|discriminate].
  destruct (store_page path (page_of response) d) as [d1|e] eqn:Es;
    [|discriminate].
  apply store_page_result in Es as (Hwf1 & _).
  destruct (truthy (NextToken response)).
  - apply IH. auto.
  - intros [= <-]. auto.
Qed.

(** The mapping the fetcher returns has unique keys, whatever the service;
    and from a service that serves its entries in pages, the value under a
    key is that of the last entry stored under it, and there are no more
    keys than entries. *)
Theorem fetch_keeps_the_last_value (path : str) (pages : list (list param))
  (fuel : nat) (d : dict) :
  (1 <= fuel)%nat -> (List.length pages <= fuel)%nat ->
  fetch_parameters_by_path fuel (paged_client pages) path = Some (Ok d) ->
  wf d /\
  (forall k, get d k = latest path k (List.concat pages) None) /\
  (List.length d <= List.length (List.concat pages))%nat.
Proof.
  intros H1 Hfuel Hfetch.
  split; [apply (fetch_loop_wf fuel (paged_client pages) path [] d None);
          [constructor | exact Hfetch]|].
  rewrite fetch_paged in Hfetch by assumption. injection Hfetch as Hstore.
  apply store_page_result in Hstore as (_ & Hget & Hlen). now split.
Qed.

Lemma fetch_of_a_repeated_name :
  wf [(lit "x", lit "2")] /\
  (forall k, get [(lit "x", lit "2")] k =
             latest nested_prefix k
               (List.concat [[flat_x]; [{| Name := lit "/a/x"; Value := lit "2" |}]])
               None) /\
  (List.length [(lit "x", lit "2")] <=
   List.length (List.concat [[flat_x]; [{| Name := lit "/a/x"; Value := lit "2" |}]]))%nat.
Proof.
  apply (fetch_keeps_the_last_value nested_prefix
           [[flat_x]; [{| Name := lit "/a/x"; Value := lit "2" |}]] 2);
    [lia | simpl; lia | reflexivity].
Defined.

Lemma fetch_loop_same_answers (ssm1 ssm2 : client) (path : str) (fuel : nat)
  (d : dict) (token : option str) :
  (forall t, t <> Some [] ->
     ssm1 {| Path := path; Recursive := true; WithDecryption := true;
             NextTokenArg := t |} =
     ssm2 {| Path := path; Recursive := true; WithDecryption := true;
             NextTokenArg := t |}) ->
  fetch_loop fuel ssm1 path d token = fetch_loop fuel ssm2 path d token.
Proof.
  intros Hsame. revert d token.
  induction fuel as [|fuel IH]; intros d token; simpl; [reflexivity|].
  rewrite Hsame by (destruct token as [[|c t]|]; simpl; discriminate).
  destruct (ssm2 _) as [response|e]; [|reflexivity].
  destruct (store_page path (page_of response) d); [|reflexivity].
  destruct (truthy (NextToken response)); [apply IH | reflexivity].
Qed.

(** All the fetcher ever asks is the given path, recursively and decrypted,
    with no cursor or a non-empty one: two services that answer these
    requests alike give the same result. *)
Theorem fetch_asks_only_recursive_decrypted (ssm1 ssm2 : client) (path : str)
  (fuel : nat) :
  (forall t, t <> Some [] ->
     ssm1 {| Path := path; Recursive := true; WithDecryption := true;
             NextTokenArg := t |} =
     ssm2 {| Path := path; Recursive := true; WithDecryption := true;
             NextTokenArg := t |}) ->
  fetch_parameters_by_path fuel ssm1 path =
  fetch_parameters_by_path fuel ssm2 path.
Proof.
  intros Hsame. unfold fetch_parameters_by_path.
  now apply fetch_loop_same_answers.
Qed.

Lemma fetch_from_a_strict_service :
  fetch_parameters_by_path 2 (paged_client [[flat_x]; [flat_y]]) nested_prefix =
  fetch_parameters_by_path 2
    (only_recursive_decrypted (paged_client [[flat_x]; [flat_y]])) nested_prefix.
Proof.
  apply (fetch_asks_only_recursive_decrypted
           (paged_client [[flat_x]; [flat_y]])
           (only_recursive_decrypted (paged_client [[flat_x]; [flat_y]]))
           nested_prefix 2).
  intros t _. reflexivity.
Defined.

Lemma fetch_loop_endless (ssm : client) (path : str) (fuel : nat) (d : dict)
  (token : option str) :
  (forall req, exists r, ssm req = Ok r /\ truthy (NextToken r) = true /\
                         forall d0, exists d1, store_page path (page_of r) d0 = Ok d1) ->
  fetch_loop fuel ssm path d token = None.
Proof.
  intros Hssm. revert d token.
  induction fuel as [|fuel IH]; intros d token; simpl; [reflexivity|].
  match goal with
  | |- context [ssm ?req] => destruct (Hssm req) as (r & -> & Ht & Hs)
  end.
  destruct (Hs d) as [d1 ->]. rewrite Ht. apply IH.
Qed.

(** The loop has no bound of its own: as long as every answer carries a
    non-empty cursor (and entries that can be stored), no number of requests
    ends the fetch. *)
Theorem fetch_does_not_end_while_cursors_come (ssm : client) (path : str) :
  (forall req, exists r, ssm req = Ok r /\ truthy (NextToken r) = true /\
                         forall d0, exists d1, store_page path (page_of r) d0 = Ok d1) ->
  forall fuel, fetch_parameters_by_path fuel ssm path = None.
Proof.
  intros Hssm fuel. unfold fetch_parameters_by_path.
  now apply fetch_loop_endless.
Qed.

Lemma fetch_from_endless_service :
  fetch_parameters_by_path 1000 endless nested_prefix = None.
Proof.
  apply (fetch_does_not_end_while_cursors_come endless nested_prefix).
  intros req. eexists. split; [reflexivity|]. split; [reflexivity|].
  intros d0. now exists d0.
Defined.

(** ** More on the commit *)

Lemma key_of_put_for (path k v : str) : key_of path (put_for path k v) = k.
Proof.
  unfold key_of, put_for. simpl.
  rewrite skipn_app, skipn_all, Nat.sub_diag. reflexivity.
Qed.

Lemma failure_lines_app (path : str) (a b : list (put_request * result unit)) :
  failure_lines path (a ++ b) = failure_lines path a ++ failure_lines path b.
Proof. unfold failure_lines. apply flat_map_app. Qed.

Section CommitMore.

Variable service : Type.
Variable put_parameter : service -> put_request -> service * result unit.
Variable path : str.
Variable params : dict.

Lemma visit_one_call_per_change (k v : str) (st : state service) :
  map fst (puts st) = map (put_of_change path) (changes st) ->
  map fst (puts (snd (visit service put_parameter path params k v st))) =
  map (put_of_change path)
      (changes (snd (visit service put_parameter path params k v st))).
Proof.
  intros H.
  destruct (visit_visited service put_parameter path params k v st); auto.
  simpl. rewrite !map_app, H. reflexivity.
Qed.

Lemma visit_output (k v : str) (st : state service) :
  stdout st = failure_lines path (puts st) ->
  stdout (snd (visit service put_parameter path params k v st)) =
  failure_lines path (puts (snd (visit service put_parameter path params k v st))).
Proof.
  intros H.
  destruct (visit_visited service put_parameter path params k v st)
    as [| |old ssm' outcome Hg Hne Hp]; auto.
  simpl. rewrite failure_lines_app, <- H.
  unfold failure_lines at 1. simpl.
  destruct outcome as [[]|err]; simpl.
  - now rewrite app_nil_r.
  - now rewrite key_of_put_for.
Qed.

End CommitMore.

(** However the commit ends, it has made exactly one call for each row of
    [changes], in the order of the rows and with the row's key and new
    value: no change without its call, no call repeated. *)
Theorem one_call_per_change (service : Type)
  (put_parameter : service -> put_request -> service * result unit)
  (s0 : service) (path : str) (params updated_params : dict) :
  map fst (puts (snd (commit service put_parameter s0 path params updated_params)))
  = map (put_of_change path)
        (changes (snd (commit service put_parameter s0 path params updated_params))).
Proof.
  destruct (commit_state service put_parameter path params s0 updated_params)
    as (Hc & Hp & _).
  rewrite Hc, Hp.
  apply (commit_loop_keeps service put_parameter path params
           (fun st => map fst (puts st) = map (put_of_change path) (changes st))).
  - intros k v st _. apply visit_one_call_per_change.
  - reflexivity.
Qed.

(** What the commit prints: a line for each call that raised, in the order
    of the calls; then, if the loop came to its end, either that nothing
    changed or the table of all the rows of [changes] and the closing line.
    The table and the closing line do not depend on how the calls ended. *)
Theorem commit_output (service : Type)
  (put_parameter : service -> put_request -> service * result unit)
  (s0 : service) (path : str) (params updated_params : dict) :
  stdout (snd (commit service put_parameter s0 path params updated_params)) =
  failure_lines path
    (puts (snd (commit service put_parameter s0 path params updated_params)))
  ++ match fst (commit service put_parameter s0 path params updated_params) with
     | Ok _ =>
       report_lines
         (changes (snd (commit service put_parameter s0 path params updated_params)))
     | Raise _ => []
     end.
Proof.
  pose proof (commit_loop_keeps service put_parameter path params
                (fun st => stdout st = failure_lines path (puts st))
                updated_params
                (fun k v st _ => visit_output service put_parameter path params k v st)
                {| changes := []; ssm := s0; stdout := []; puts := [] |}
                eq_refl) as Hloop.
  unfold commit.
  destruct (commit_loop service put_parameter path params updated_params _)
    as [[[]|err] st]; simpl in *.
  - rewrite <- Hloop. now destruct (changes st).
  - now rewrite app_nil_r.
Qed.

Lemma commit_loop_store (failing : str -> bool) (path : str)
  (params items : dict) (st : state store) (k v : str) :
  wf items -> (forall k', In k' (keys items) -> get params k' <> None) ->
  In (k, v) items ->
  get (ssm (snd (commit_loop store (store_put failing) path params items st)))
      (path ++ k)
  = if differs params k v && negb (failing (path ++ k))
    then Some v else get (ssm st) (path ++ k).
Proof.
  revert st. induction items as [|[k0 v0] items IH]; intros st Hwf Hknown Hin;
    [contradiction|].
  inversion Hwf as [|? ? Hfresh Hwf']; subst.
  assert (Hknown' : forall k', In k' (keys items) -> get params k' <> None)
    by (intros k' Hk'; apply Hknown; now right).
  assert (Hk0 : get params k0 <> None) by (apply Hknown; now left).
  simpl. unfold visit, try_put, lookup, differs.
  destruct (get params k0) as [old|] eqn:Eg; [|congruence].
  destruct Hin as [[= -> ->]|Hin].
  - (* the item itself: nothing later carries its name *)
    assert (Hlater : forall k', In k' (keys items) -> path ++ k <> path ++ k').
    { intros k' Hk' Heq. apply app_inv_head in Heq. now subst. }
    unfold differs. rewrite Eg.
    destruct (negb (str_eqb old v)); simpl.
    + unfold store_put at 2. simpl.
      destruct (failing (path ++ k)); simpl;
        rewrite store_untouched by assumption; simpl;
        [reflexivity | apply get_set_same].
    + now rewrite store_untouched.
  - (* a later item: this visit leaves its name alone *)
    assert (Hne : path ++ k <> path ++ k0).
    { intros Heq. apply app_inv_head in Heq. subst k0.
      apply Hfresh. change k with (fst (k, v)). now apply in_map. }
    destruct (negb (str_eqb old v0)); simpl.
    + unfold store_put at 2. simpl.
      destruct (failing (path ++ k0)); simpl; rewrite IH by assumption;
        simpl; [reflexivity|].
      now rewrite get_set_other.
    + now apply IH.
Qed.

(** Against the reference store, when every edited key exists in the
    original snapshot: after the commit the store holds the edited value
    under the name of every changed key whose write was accepted, and what
    it held before under the name of every other edited key. *)
Theorem commit_updates_the_store (failing : str -> bool) (stored : store)
  (path : str) (params updated_params : dict) (k v : str) :
  wf updated_params ->
  (forall k', In k' (keys updated_params) -> get params k' <> None) ->
  get updated_params k = Some v ->
  get (ssm (snd (commit store (store_put failing) stored path params updated_params)))
      (path ++ k)
  = if differs params k v && negb (failing (path ++ k))
    then Some v else get stored (path ++ k).
Proof.
  intros Hwf Hknown Hget.
  destruct (commit_state store (store_put failing) path params stored updated_params)
    as (_ & _ & Hs & _).
  rewrite Hs.
  now apply commit_loop_store; [| |apply get_In].
Qed.

Lemma store_after_one_refusal :
  get (ssm (snd (commit store (store_put refuses_b) stored_abc prefix
                   original_abc edited_all)))
      (prefix ++ lit "a") = Some (lit "10") /\
  get (ssm (snd (commit store (store_put refuses_b) stored_abc prefix
                   original_abc edited_all)))
      (prefix ++ lit "b") = Some (lit "2").
Proof.
  assert (Hwf : wf edited_all).
  { unfold wf. simpl. repeat constructor; simpl; intuition discriminate. }
  assert (Hknown : forall k', In k' (keys edited_all) -> get original_abc k' <> None).
  { intros k' Hin. simpl in Hin.
    destruct Hin as [<-|[<-|[<-|[]]]]; discriminate. }
  split.
  - exact (commit_updates_the_store refuses_b stored_abc prefix original_abc
             edited_all (lit "a") (lit "10") Hwf Hknown eq_refl).
  - exact (commit_updates_the_store refuses_b stored_abc prefix original_abc
             edited_all (lit "b") (lit "20") Hwf Hknown eq_refl).
Defined.

(** ** [main] *)

Lemma reparse_wf_plain (content : str) (d : dict) :
  reparse content = Ok d -> wf d /\ Spec.plain d.
Proof.
  rewrite reparse_edited_snapshot. intros [= <-]. split.
  - apply wf_fold_insert_entry. constructor.
  - apply plain_fold_insert_entry; [|intros k v []].
    intros l c. apply read_line_trimmed.
Qed.

Lemma edit_result_is_reparsed (e : env) (parameters : dict) (editor : str)
  (f f' : fs) (d : dict) :
  edit_parameters_in_editor e parameters editor f = (Ok d, f') ->
  exists content, reparse content = Ok d.
Proof.
  unfold edit_parameters_in_editor, seq.
  destruct (create_and_write _ _ _ f) as [[[]|err] f1]; [|discriminate].
  destruct (invoke_editor e editor (tmp_name e) f1) as [[[]|err] f2];
    [|discriminate].
  unfold reparse_file, read_text.
  destruct (f2 (tmp_name e)) as [b|] eqn:E; [|discriminate].
  destruct (decode (locale e) b) as [content|]; [|discriminate].
  destruct (reparse content) as [d'|err] eqn:Er; [|discriminate].
  unfold unlink. rewrite E. unfold ret. intros [= <- _]. now exists content.
Qed.

Lemma edit_fails_with_the_editor (e : env) (parameters : dict) (editor : str)
  (f : fs) :
  (forall f0, exists err f1,
     invoke_editor e editor (tmp_name e) f0 = (Raise err, f1)) ->
  exists err, fst (edit_parameters_in_editor e parameters editor f) = Raise err.
Proof.
  intros H. unfold edit_parameters_in_editor, seq.
  destruct (create_and_write _ _ _ f) as [[[]|err] f1]; [|now exists err].
  destruct (H f1) as (err & f2 & ->).
  now exists err.
Qed.

Section MainFacts.

Variable service : Type.
Variable get_parameters_by_path : service -> request -> result response.
Variable put_parameter : service -> put_request -> service * result unit.
Variable e : env.

Local Abbreviation main := (Main.main service get_parameters_by_path put_parameter e).

(** When the snapshot fetched is one the line format carries, its lines
    have been written (by a codec that reads back what it wrote) and the
    editor returns with the temporary file as it was written, [main] ends
    normally without a single call to the service, prints that nothing
    changed, and leaves no temporary file. *)
Theorem main_writes_nothing_when_unedited (fuel : nat) (a : Main.args)
  (s0 : service) (f0 f1 f2 : fs) (params : dict) :
  fetch_parameters_by_path fuel (get_parameters_by_path s0) (Main.path a)
    = Some (Ok params) ->
  Spec.plain params -> faithful (locale e) ->
  create_and_write (locale e) (tmp_name e) params f0 = (Ok tt, f1) ->
  invoke_editor e (Main.editor a) (tmp_name e) f1 = (Ok tt, f2) ->
  f2 (tmp_name e) = f1 (tmp_name e) ->
  main fuel a s0 f0 =
    Some {| Main.status := Ok tt;
            Main.remote := s0;
            Main.files := fs_unlink (tmp_name e) f2;
            Main.printed := [Main.Fetching (Main.path a);
                             Main.Fetched (List.length params);
                             Main.ChangedValues;
                             Main.Reported NoChanges];
            Main.calls := [] |}.
Proof.
  intros Hfetch Hplain Hc Hw Hinv Hfile.
  assert (Hwf : wf params).
  { apply (fetch_loop_wf fuel (get_parameters_by_path s0) (Main.path a) []
             params None); [constructor | exact Hfetch]. }
  unfold Main.main. rewrite Hfetch.
  rewrite (edit_unedited e params (Main.editor a) f0 f1 f2) by assumption.
  unfold commit. rewrite commit_loop_unchanged; [reflexivity|].
  intros k v Hin. now apply In_get.
Qed.

(** Every call [main] makes carries a name that starts with the given path
    and continues with a key read from the edited file, and a value read
    from it: the key and the value are trimmed and have no line break, and
    the key has no [=]. *)
Theorem main_calls_carry_what_was_read (fuel : nat) (a : Main.args)
  (s0 : service) (f0 : fs) (o : Main.outcome service)
  (req : put_request) (outcome : result unit) :
  main fuel a s0 f0 = Some o ->
  In (req, outcome) (Main.calls o) ->
  exists k v,
    req = put_for (Main.path a) k v /\
    Spec.plain_key k /\ Spec.plain_value v /\
    startswith (Main.path a) (Commit.Name req) = true.
Proof.
  unfold Main.main.
  destruct (fetch_parameters_by_path fuel _ _) as [[params|err]|];
    [| intros [= <-] [] | discriminate].
  destruct (edit_parameters_in_editor e params (Main.editor a) f0)
    as [[updated|err] f1] eqn:Eedit; [| intros [= <-] []].
  intros [= <-] Hin. simpl in Hin.
  destruct (edit_result_is_reparsed _ _ _ _ _ _ Eedit) as [content Hre].
  apply reparse_wf_plain in Hre as [_ Hplain].
  destruct (commit_puts_from service put_parameter s0 (Main.path a) params
              updated req outcome Hin) as (k & v & -> & Hkv & _).
  exists k, v. destruct (Hplain k v Hkv) as [Hk Hv].
  repeat split; try apply Hk; try apply Hv.
  apply startswith_app.
Qed.

(** When the editor cannot be started, [main] ends with an error without a
    call to [put_parameter]: the service is as it was. *)
Theorem main_writes_nothing_when_the_editor_fails (fuel : nat) (a : Main.args)
  (s0 : service) (f0 : fs) (o : Main.outcome service) :
  (forall f, exists err f1,
     invoke_editor e (Main.editor a) (tmp_name e) f = (Raise err, f1)) ->
  main fuel a s0 f0 = Some o ->
  (exists err, Main.status o = Raise err) /\
  Main.calls o = [] /\ Main.remote o = s0.
Proof.
  intros Hed. unfold Main.main.
  destruct (fetch_parameters_by_path fuel _ _) as [[params|err]|];
    [| intros [= <-]; simpl; eauto | discriminate].
  destruct (edit_fails_with_the_editor e params (Main.editor a) f0 Hed)
    as [err Herr].
  destruct (edit_parameters_in_editor e params (Main.editor a) f0)
    as [[updated|err'] f1]; simpl in Herr; [discriminate|].
  intros [= <-]. simpl. eauto.
Qed.

(** When the service cannot be reached, [main] ends with the error of the
    first request: no file has been created and no call to [put_parameter]
    made. *)
Theorem main_stops_when_the_service_is_unreachable (fuel : nat)
  (a : Main.args) (s0 : service) (f0 : fs) (err : exn) :
  (forall req, get_parameters_by_path s0 req = Raise err) ->
  (1 <= fuel)%nat ->
  main fuel a s0 f0 =
    Some {| Main.status := Raise err;
            Main.remote := s0;
            Main.files := f0;
            Main.printed := [Main.Fetching (Main.path a)];
            Main.calls := [] |}.
Proof.
  intros Hget Hfuel. unfold Main.main, fetch_parameters_by_path.
  destruct fuel as [|fuel]; [lia|]. simpl. now rewrite Hget.
Qed.

End MainFacts.

Lemma plain_original_abc : Spec.plain original_abc.
Proof.
  intros k v Hin. simpl in Hin.
  destruct Hin as [[= <- <-]|[[= <- <-]|[[= <- <-]|[]]]];
    (split; [split|]; repeat split; simpl; intuition discriminate).
Defined.

Lemma unedited_run_makes_no_call :
  Main.main store serve_all (store_put accepts_all) idle_editor 1 p_vim
    stored_abc empty_fs =
  Some {| Main.status := Ok tt;
          Main.remote := stored_abc;
          Main.files :=
            fs_unlink (tmp_name idle_editor)
              (fs_write (tmp_name idle_editor)
                 (snd (write_lines utf8 original_abc [])) empty_fs);
          Main.printed := [Main.Fetching (lit "/p/"); Main.Fetched 3;
                           Main.ChangedValues; Main.Reported NoChanges];
          Main.calls := [] |}.
Proof.
  exact (main_writes_nothing_when_unedited store serve_all
           (store_put accepts_all) idle_editor 1 p_vim stored_abc empty_fs
           (fs_write (tmp_name idle_editor)
              (snd (write_lines utf8 original_abc [])) empty_fs)
           (fs_write (tmp_name idle_editor)
              (snd (write_lines utf8 original_abc [])) empty_fs)
           original_abc eq_refl plain_original_abc utf8_faithful
           eq_refl eq_refl eq_refl).
Defined.

Lemma edited_run_calls_for_a :
  exists o,
    Main.main store serve_all (store_put accepts_all)
      (typing_editor (lit "a = 10" ++ [LF] ++ lit "b=2" ++ [LF] ++ lit "c=3"))
      1 p_vim stored_abc empty_fs = Some o /\
    In (put_for (lit "/p/") (lit "a") (lit "10"), Ok tt) (Main.calls o) /\
    exists k v,
      put_for (lit "/p/") (lit "a") (lit "10") = put_for (Main.path p_vim) k v /\
      Spec.plain_key k /\ Spec.plain_value v /\
      startswith (Main.path p_vim)
        (Commit.Name (put_for (lit "/p/") (lit "a") (lit "10"))) = true.
Proof.
  eexists. split; [reflexivity|].
  split; [left; reflexivity|].
  eapply (main_calls_carry_what_was_read store serve_all (store_put accepts_all)
            (typing_editor (lit "a = 10" ++ [LF] ++ lit "b=2" ++ [LF] ++ lit "c=3"))
            1 p_vim stored_abc empty_fs _ _ (Ok tt)).
  - reflexivity.
  - left. reflexivity.
Defined.

Lemma run_without_editor_makes_no_call :
  exists o,
    Main.main store serve_all (store_put accepts_all) no_such_editor 1 p_vim
      stored_abc empty_fs = Some o /\
    (exists err, Main.status o = Raise err) /\
    Main.calls o = [] /\ Main.remote o = stored_abc.
Proof.
  eexists. split; [reflexivity|].
  eapply (main_writes_nothing_when_the_editor_fails store serve_all
            (store_put accepts_all) no_such_editor 1 p_vim stored_abc empty_fs).
  - intros f. eexists. eexists. reflexivity.
  - reflexivity.
Defined.

Lemma run_against_unreachable_service :
  Main.main store (fun _ => unreachable) (store_put accepts_all) idle_editor 1
    p_vim stored_abc empty_fs =
  Some {| Main.status := Raise (ClientError (lit "EndpointConnectionError"));
          Main.remote := stored_abc;
          Main.files := empty_fs;
          Main.printed := [Main.Fetching (lit "/p/")];
          Main.calls := [] |}.
Proof.
  apply (main_stops_when_the_service_is_unreachable store (fun _ => unreachable)
           (store_put accepts_all) idle_editor 1 p_vim stored_abc empty_fs).
  - intros req. reflexivity.
  - lia.
Defined.

(** A run in which nothing is edited still writes when the snapshot is not
    one the line format carries: the value of two lines is replaced, in the
    store, by its first line. *)
Example unedited_run_truncates_a_value_of_two_lines :
  exists o,
    Main.main store serve_all (store_put accepts_all) idle_editor 1 p_vim
      stored_cert empty_fs = Some o /\
    Main.status o = Ok tt /\
    Main.calls o = [(put_for (lit "/p/") (lit "cert") (lit "line1"), Ok tt)] /\
    Main.remote o = [(lit "/p/cert", lit "line1")].
Proof.
  eexists. split; [reflexivity|]. repeat split.
Qed.

(** ** A new key in the middle of an edit *)

Lemma commit_loop_app (service : Type)
  (put_parameter : service -> put_request -> service * result unit)
  (path : str) (params a b : dict) (st : state service) :
  commit_loop service put_parameter path params (a ++ b) st =
  match commit_loop service put_parameter path params a st with
  | (Ok _, st') => commit_loop service put_parameter path params b st'
  | (Raise err, st') => (Raise err, st')
  end.
Proof.
  revert st. induction a as [|[k v] a IH]; intros st; simpl; [reflexivity|].
  destruct (visit service put_parameter path params k v st) as [[[]|err] st'];
    [apply IH | reflexivity].
Qed.

(** The commit is not all or nothing.  When the edited snapshot has a key
    [k] that the original one lacks, after items whose keys it has, the
    commit stops at [k] with [KeyError]: the calls for the changed items
    before [k] have been made, none is made for [k] or for any later item,
    and neither the table nor a closing line is printed. *)
Theorem commit_stops_after_partial_writes (service : Type)
  (put_parameter : service -> put_request -> service * result unit)
  (s0 : service) (path : str) (params before after : dict) (k v : str) :
  (forall k', In k' (keys before) -> get params k' <> None) ->
  get params k = None ->
  fst (commit service put_parameter s0 path params (before ++ (k, v) :: after))
    = Raise (KeyError k) /\
  map fst (puts (snd (commit service put_parameter s0 path params
                        (before ++ (k, v) :: after)))) =
    map (fun kv => put_for path (fst kv) (snd kv))
        (filter (fun kv => differs params (fst kv) (snd kv)) before) /\
  stdout (snd (commit service put_parameter s0 path params
                 (before ++ (k, v) :: after))) =
    failure_lines path
      (puts (snd (commit service put_parameter s0 path params
                    (before ++ (k, v) :: after)))).
Proof.
  intros Hknown Hnew.
  pose proof (commit_loop_keeps service put_parameter path params
                (fun st => stdout st = failure_lines path (puts st))
                (before ++ (k, v) :: after)
                (fun k v st _ => visit_output service put_parameter path params k v st)
                {| changes := []; ssm := s0; stdout := []; puts := [] |}
                eq_refl) as Hout.
  destruct (commit_loop_known_keys service put_parameter path params before
              {| changes := []; ssm := s0; stdout := []; puts := [] |} Hknown)
    as [Hok Hputs].
  unfold commit. rewrite commit_loop_app in *.
  destruct (commit_loop service put_parameter path params before _)
    as [[[]|err] st1]; simpl in Hok; [|discriminate].
  simpl in Hputs. cbn [commit_loop] in *.
  unfold visit, differs, lookup in *. rewrite Hnew in *.
  simpl in *. auto.
Qed.

Lemma commit_stops_at_c_after_writing_b :
  fst (commit store (store_put accepts_all) [] prefix original_ab edited_abc)
    = Raise (KeyError (lit "c")) /\
  map fst (puts (snd (commit store (store_put accepts_all) [] prefix
                        original_ab edited_abc))) =
    [put_for prefix (lit "b") (lit "3")] /\
  stdout (snd (commit store (store_put accepts_all) [] prefix
                 original_ab edited_abc)) =
    failure_lines prefix
      (puts (snd (commit store (store_put accepts_all) [] prefix
                    original_ab edited_abc))).
Proof.
  apply (commit_stops_after_partial_writes store (store_put accepts_all) []
           prefix original_ab
           [(lit "a", lit "1"); (lit "b", lit "3")] [] (lit "c") (lit "4")).
  - intros k' Hin. simpl in Hin. destruct Hin as [<-|[<-|[]]]; discriminate.
  - reflexivity.
Defined.

Lemma failure_lines_are_failures (path : str)
  (puts : list (put_request * result unit)) (o : output) :
  In o (failure_lines path puts) -> exists k err, o = FailedToUpdate k err.
Proof.
  unfold failure_lines. rewrite in_flat_map. intros ([req r] & _ & Hin).
  destruct r as [[]|err]; simpl in Hin; [contradiction|].
  destruct Hin as [<-|[]]. eauto.
Qed.

(** Whenever the edited snapshot has a key that the original one lacks, the
    commit stops with a [KeyError], and the report of lines 88-92 is not
    reached: all that has been printed is the lines of the calls that
    raised; neither "no changes", nor the table, nor the closing line. *)
Theorem commit_stops_at_a_new_key (service : Type)
  (put_parameter : service -> put_request -> service * result unit)
  (s0 : service) (path : str) (params updated_params : dict) (k : str) :
  In k (keys updated_params) -> get params k = None ->
  (exists k', fst (commit service put_parameter s0 path params updated_params)
              = Raise (KeyError k')) /\
  stdout (snd (commit service put_parameter s0 path params updated_params)) =
    failure_lines path
      (puts (snd (commit service put_parameter s0 path params updated_params))) /\
  ~ In NoChanges
      (stdout (snd (commit service put_parameter s0 path params updated_params))) /\
  (forall rows,
     ~ In (ChangesTable rows)
          (stdout (snd (commit service put_parameter s0 path params updated_params)))) /\
  ~ In AllUpdated
      (stdout (snd (commit service put_parameter s0 path params updated_params))).
Proof.
  intros Hin Hnew.
  assert (Hfst : exists k', fst (commit service put_parameter s0 path params
                                   updated_params) = Raise (KeyError k')).
  { rewrite commit_fst. now apply commit_loop_new_key with (k := k). }
  assert (Hout : stdout (snd (commit service put_parameter s0 path params
                                updated_params)) =
                 failure_lines path
                   (puts (snd (commit service put_parameter s0 path params
                                 updated_params)))).
  { pose proof (commit_loop_keeps service put_parameter path params
                  (fun st => stdout st = failure_lines path (puts st))
                  updated_params
                  (fun k v st _ =>
                     visit_output service put_parameter path params k v st)
                  {| changes := []; ssm := s0; stdout := []; puts := [] |}
                  eq_refl) as Hloop.
    destruct Hfst as [k' Hfst]. unfold commit in *.
    destruct (commit_loop service put_parameter path params updated_params _)
      as [[[]|err] st]; simpl in *; [discriminate | exact Hloop]. }
  split; [exact Hfst|]. split; [exact Hout|].
  rewrite Hout.
  split; [intros H | split; [intros rows H | intros H]];
    apply failure_lines_are_failures in H as (k0 & err & H); discriminate.
Qed.

Lemma commit_stops_at_c :
  (exists k', fst (commit store (store_put accepts_all) [] prefix
                     original_ab edited_abc)
              = Raise (KeyError k')) /\
  stdout (snd (commit store (store_put accepts_all) [] prefix
                 original_ab edited_abc)) =
    failure_lines prefix
      (puts (snd (commit store (store_put accepts_all) [] prefix
                    original_ab edited_abc))) /\
  ~ In NoChanges
      (stdout (snd (commit store (store_put accepts_all) [] prefix
                      original_ab edited_abc))) /\
  (forall rows,
     ~ In (ChangesTable rows)
          (stdout (snd (commit store (store_put accepts_all) [] prefix
                          original_ab edited_abc)))) /\
  ~ In AllUpdated
      (stdout (snd (commit store (store_put accepts_all) [] prefix
                      original_ab edited_abc))).
Proof.
  apply (commit_stops_at_a_new_key store (store_put accepts_all) [] prefix
           original_ab edited_abc (lit "c")).
  - simpl. right. right. left. reflexivity.
  - reflexivity.
Defined.
